(** * Chess PGN viewer: the notation parser and the board-state engine

    A shallow embedding of [ChessUtils] from [src/App.jsx]
    ([fenToBoard], [boardToFen], [executeCastlingForColor], [executeMove],
    [parsePGN] with its local [processSequence]) and the properties of the
    specification that are settled against it.

    Conventions of the embedding.
    - A JavaScript string is a [string]; a character is a code unit below
      256 (Latin-1), so the white space of [trim] and of the regular
      expression class \s is TAB, LF, VT, FF, CR, SPACE and NBSP.
    - The literal regular expressions of the source are values of [regex],
      run by a backtracking matcher with the priorities of JavaScript
      (alternatives left to right, greedy quantifiers, numbered groups).
    - A fault (a JavaScript exception: here always a TypeError raised by a
      property access on [undefined]) is the [Throw] of [completion];
      try/catch is a match on it.
    - [null] and [undefined] are both the [Empty] cell: the code only tests
      cells for truthiness and for identity with a piece letter.  A hole of
      a sparse array is the [Hole] cell: [forEach] skips it and spreading a
      row turns it into [undefined]. *)

From Stdlib Require Import ZArith Lia Ascii QArith.
From stdpp Require Import base gmap strings list.

Local Open Scope Z_scope.
Local Open Scope nat_scope.

(** ** Completions: values and thrown exceptions *)

Inductive completion (A : Type) : Type :=
| Normal (a : A)
| Throw.
Arguments Normal {A} a.
Arguments Throw {A}.

Definition cbind {A B} (m : completion A) (k : A -> completion B) : completion B :=
  match m with
  | Normal a => k a
  | Throw => Throw
  end.

Notation "'let!' x ':=' m 'in' k" := (cbind m (fun x => k))
  (at level 10, x pattern, m at level 100, k at level 200).

(** ** Strings as the source uses them *)

Module JsString.

Definition quote : ascii := ascii_of_nat 34.
Definition lf : ascii := ascii_of_nat 10.
Definition cr : ascii := ascii_of_nat 13.

Definition str (c : ascii) : string := String c EmptyString.

Definition is_empty (s : string) : bool :=
  match s with EmptyString => true | String _ _ => false end.

(** WhiteSpace and LineTerminator code units below 256. *)
Definition is_ws (c : ascii) : bool :=
  match nat_of_ascii c with
  | 9 | 10 | 11 | 12 | 13 | 32 | 160 => true
  | _ => false
  end.

Definition is_digit (c : ascii) : bool :=
  let n := nat_of_ascii c in (48 <=? n) && (n <=? 57).

(** \w of a regular expression without the unicode flag *)
Definition is_word (c : ascii) : bool :=
  let n := nat_of_ascii c in
  ((48 <=? n) && (n <=? 57)) || ((65 <=? n) && (n <=? 90))
  || ((97 <=? n) && (n <=? 122)) || (n =? 95).

Definition ascii_eqb (a b : ascii) : bool := bool_decide (a = b).

Definition in_range (lo hi : ascii) (c : ascii) : bool :=
  (nat_of_ascii lo <=? nat_of_ascii c) && (nat_of_ascii c <=? nat_of_ascii hi).

Fixpoint one_of (cs : string) (c : ascii) : bool :=
  match cs with
  | EmptyString => false
  | String d cs' => ascii_eqb c d || one_of cs' c
  end.

Fixpoint trimStart (s : string) : string :=
  match s with
  | EmptyString => EmptyString
  | String c s' => if is_ws c then trimStart s' else s
  end.

Fixpoint trimEnd (s : string) : string :=
  match s with
  | EmptyString => EmptyString
  | String c s' =>
      let t := trimEnd s' in
      if is_ws c && is_empty t then EmptyString else String c t
  end.

Definition trim (s : string) : string := trimEnd (trimStart s).

(** [s.split(sep)] for a one-character separator: never the empty list. *)
Fixpoint split (sep : ascii) (s : string) : list string :=
  match s with
  | EmptyString => [EmptyString]
  | String c s' =>
      if ascii_eqb c sep then EmptyString :: split sep s'
      else match split sep s' with
           | piece :: rest => String c piece :: rest
           | [] => [String c EmptyString]
           end
  end.

(** [l.join(sep)] *)
Fixpoint join (sep : string) (l : list string) : string :=
  match l with
  | [] => EmptyString
  | [s] => s
  | s :: rest => s +:+ sep +:+ join sep rest
  end.

Fixpoint startsWith (s p : string) : bool :=
  match p, s with
  | EmptyString, _ => true
  | String _ _, EmptyString => false
  | String a p', String b s' => ascii_eqb a b && startsWith s' p'
  end.

Fixpoint includes (s p : string) : bool :=
  startsWith s p ||
  match s with
  | EmptyString => false
  | String _ s' => includes s' p
  end.

Fixpoint rev_string (acc s : string) : string :=
  match s with
  | EmptyString => acc
  | String c s' => rev_string (String c acc) s'
  end.

Definition endsWith (s p : string) : bool :=
  startsWith (rev_string EmptyString s) (rev_string EmptyString p).

Fixpoint drop_last (s : string) : string :=
  match s with
  | EmptyString => EmptyString
  | String c EmptyString => EmptyString
  | String c s' => String c (drop_last s')
  end.

(** [s.slice(1, -1)] *)
Definition slice_1_m1 (s : string) : string :=
  match s with
  | EmptyString => EmptyString
  | String _ s' => drop_last s'
  end.

Fixpoint first_chars (n : nat) (s : string) : string :=
  match n, s with
  | S n', String c s' => String c (first_chars n' s')
  | _, _ => EmptyString
  end.

(** [s.replace(/c/g, '')] for a single character [c] *)
Fixpoint remove_all (c : ascii) (s : string) : string :=
  match s with
  | EmptyString => EmptyString
  | String d s' => if ascii_eqb d c then remove_all c s' else String d (remove_all c s')
  end.

(** [toUpperCase] and [toLowerCase] on the letters A-Z and a-z, the only
    characters the source ever passes to them (piece letters). *)
Definition toUpperCase (c : ascii) : ascii :=
  let n := nat_of_ascii c in
  if (97 <=? n) && (n <=? 122) then ascii_of_nat (n - 32) else c.

Definition toLowerCase (c : ascii) : ascii :=
  let n := nat_of_ascii c in
  if (65 <=? n) && (n <=? 90) then ascii_of_nat (n + 32) else c.

(** [String(n)] for a natural number: its decimal digits. *)
Definition digit_char (d : nat) : ascii := ascii_of_nat (48 + d).

Fixpoint of_nat_fuel (fuel n : nat) (acc : string) : string :=
  match fuel with
  | O => acc
  | S fuel' =>
      let acc' := String (digit_char (n mod 10)) acc in
      if n / 10 =? 0 then acc' else of_nat_fuel fuel' (n / 10) acc'
  end.

Definition of_nat (n : nat) : string := of_nat_fuel (S n) n EmptyString.

(** [parseInt(ch)] for a character accepted by \d *)
Definition digit_value (c : ascii) : nat := nat_of_ascii c - 48.

(** [parseInt(s, 10)] for a string of digits (exact: the source computes
    it in double precision, which agrees up to 2^53). *)
Fixpoint parseInt_acc (acc : N) (s : string) : N :=
  match s with
  | EmptyString => acc
  | String c s' => parseInt_acc (10 * acc + N.of_nat (digit_value c))%N s'
  end.

Definition parseInt (s : string) : N := parseInt_acc 0%N s.

End JsString.

(** ** Regular expressions

    The patterns of the source, run as JavaScript runs them: the matcher
    tries the alternatives from left to right, quantifiers are greedy, and
    what a numbered group matched last is recorded.  A pattern whose every
    alternative starts with ^ is run at index 0 only ([exec]); $ is [Eos]
    (no pattern of the source sets the multiline flag). *)

Module Regex.
Import JsString.

Inductive regex : Type :=
| Chr (p : ascii -> bool)
| Eps
| Cat (r1 r2 : regex)
| Alt (r1 r2 : regex)
| Opt (r : regex)
| Star (r : regex)
| Grp (i : nat) (r : regex)
| Look (r : regex)
| Eos.

Definition Plus (r : regex) : regex := Cat r (Star r).
Definition Lit (c : ascii) : regex := Chr (fun d => ascii_eqb d c).

Fixpoint Str (s : string) : regex :=
  match s with
  | EmptyString => Eps
  | String c s' => Cat (Lit c) (Str s')
  end.

(** The groups that took part in the match, the last one first. *)
Definition captures := list (nat * string).

Fixpoint group (i : nat) (caps : captures) : option string :=
  match caps with
  | [] => None
  | (j, s) :: caps' => if Nat.eqb i j then Some s else group i caps'
  end.

Definition continuation := string -> captures -> option (string * captures).

(** [run r s caps k]: match [r] at the start of [s], then go on with [k]
    on what is left; [None] asks the caller to backtrack.  An iteration
    of a star must consume a character, so [String.length s] iterations
    are all there can be. *)
Fixpoint run (r : regex) (s : string) (caps : captures) (k : continuation)
  : option (string * captures) :=
  match r with
  | Chr p =>
      match s with
      | String c s' => if p c then k s' caps else None
      | EmptyString => None
      end
  | Eps => k s caps
  | Cat r1 r2 => run r1 s caps (fun s' caps' => run r2 s' caps' k)
  | Alt r1 r2 =>
      match run r1 s caps k with
      | Some res => Some res
      | None => run r2 s caps k
      end
  | Opt r1 =>
      match run r1 s caps k with
      | Some res => Some res
      | None => k s caps
      end
  | Star r1 =>
      (fix loop (fuel : nat) (s : string) (caps : captures) {struct fuel} :=
         match fuel with
         | O => k s caps
         | S fuel' =>
             match run r1 s caps
                     (fun s' caps' =>
                        if String.length s' <? String.length s
                        then loop fuel' s' caps' else None) with
             | Some res => Some res
             | None => k s caps
             end
         end) (String.length s) s caps
  | Grp i r1 =>
      run r1 s caps
        (fun s' caps' =>
           k s' ((i, first_chars (String.length s - String.length s') s) :: caps'))
  | Look r1 =>
      match run r1 s caps (fun s' caps' => Some (s', caps')) with
      | Some (_, caps') => k s caps'
      | None => None
      end
  | Eos => if is_empty s then k s caps else None
  end.

(** A match that starts at the first character of [s]: the text matched,
    what follows it, and the groups. *)
Definition match_at (r : regex) (s : string) : option (string * string * captures) :=
  match run r s [] (fun s' caps => Some (s', caps)) with
  | Some (rest, caps) =>
      Some (first_chars (String.length s - String.length rest) s, rest, caps)
  | None => None
  end.

(** [s.match(r)] for an anchored pattern without the g flag *)
Definition exec (r : regex) (s : string) : option captures :=
  match match_at r s with
  | Some (_, _, caps) => Some caps
  | None => None
  end.

(** [r.test(s)] for an anchored pattern *)
Definition test (r : regex) (s : string) : bool :=
  match exec r s with Some _ => true | None => false end.

(** [r.test(s)] for a pattern without anchor: the first index that matches *)
Fixpoint search (r : regex) (s : string) : bool :=
  match match_at r s with
  | Some _ => true
  | None =>
      match s with
      | EmptyString => false
      | String _ s' => search r s'
      end
  end.

(** [s.split(r)].  With [keep], [r] is one capture group around the whole
    pattern and the separator matched is spliced into the result, as
    split does for a captured group.  [piece] is the text since the end
    of the last separator, reversed; [skip] counts the characters of the
    separator just matched that are still to be passed over. *)
Fixpoint split_from (keep : bool) (r : regex) (skip : nat) (piece : string)
         (s : string) : list string :=
  match s with
  | EmptyString => [rev_string EmptyString piece]
  | String c s' =>
      match skip with
      | S skip' => split_from keep r skip' piece s'
      | O =>
          match match_at r s with
          | Some (String m0 m, _, _) =>
              rev_string EmptyString piece
                :: (if keep then [String m0 m] else [])
                ++ split_from keep r (String.length m) EmptyString s'
          | Some (EmptyString, _, _) =>
              if is_empty piece
              then split_from keep r 0 (String c piece) s'
              else rev_string EmptyString piece
                     :: (if keep then [EmptyString] else [])
                     ++ split_from keep r 0 (String c EmptyString) s'
          | None => split_from keep r 0 (String c piece) s'
          end
      end
  end.

Definition split (keep : bool) (r : regex) (s : string) : list string :=
  match s with
  | EmptyString =>
      match match_at r EmptyString with Some _ => [] | None => [EmptyString] end
  | _ => split_from keep r 0 EmptyString s
  end.

End Regex.

(** ** The patterns of the source *)

Module Patterns.
Import JsString Regex.

Definition digit : regex := Chr is_digit.
Definition space : regex := Chr is_ws.
Definition dot : regex := Lit "."%char.
Definition pieceLetter : regex := Chr (one_of "KQRNB").
Definition file : regex := Chr (in_range "a" "h").
Definition rank : regex := Chr (in_range "1" "8").
Definition check : regex := Chr (one_of "+#").

(** /\n{2,}(?=\[Event\s)/g, the separator between two games *)
Definition gameBoundary : regex :=
  Cat (Lit lf) (Cat (Lit lf) (Cat (Star (Lit lf)) (Look (Cat (Str "[Event") space)))).

(** /\d+\./, what makes a chunk without an Event tag worth keeping *)
Definition numberedMove : regex := Cat (Plus digit) dot.

(** /^\[(\w+)\s+Q(V)Q\]$/ where Q is the double quote and V is [^Q]
    starred: any run of characters other than the double quote *)
Definition headerLine : regex :=
  Cat (Lit "[")
    (Cat (Grp 1 (Plus (Chr is_word)))
       (Cat (Plus space)
          (Cat (Lit quote)
             (Cat (Grp 2 (Star (Chr (fun c => negb (ascii_eqb c quote)))))
                (Cat (Lit quote) (Cat (Lit "]") Eos)))))).

(** /(\{[^}]*\}|\(|\)|\d+\.\.\.|\d+\.|\s+)/, the separators of move text *)
Definition tokenSeparator : regex :=
  Grp 1
    (Alt (Cat (Lit "{") (Cat (Star (Chr (fun c => negb (ascii_eqb c "}")))) (Lit "}")))
       (Alt (Lit "(")
          (Alt (Lit ")")
             (Alt (Cat (Plus digit) (Str "..."))
                (Alt (Cat (Plus digit) dot)
                   (Plus space)))))).

(** /^(\d+)(\.\.\.)?\.?$/ *)
Definition numMatch : regex :=
  Cat (Grp 1 (Plus digit)) (Cat (Opt (Grp 2 (Str "..."))) (Cat (Opt dot) Eos)).

(** /^[KQRNB]?[a-h]?[1-8]?(x)?[a-h][1-8](=[QRNB])?[+#]?$|^O-O(-O)?$|^0-0(-0)?$/ *)
Definition sanRegex : regex :=
  Alt (Cat (Opt pieceLetter)
         (Cat (Opt file)
            (Cat (Opt rank)
               (Cat (Opt (Grp 1 (Lit "x")))
                  (Cat file
                     (Cat rank
                        (Cat (Opt (Grp 2 (Cat (Lit "=") pieceLetter)))
                           (Cat (Opt check) Eos))))))))
    (Alt (Cat (Str "O-O") (Cat (Opt (Grp 3 (Str "-O"))) Eos))
       (Cat (Str "0-0") (Cat (Opt (Grp 4 (Str "-0"))) Eos))).

(** /^([KQRNB])?([a-h])?([1-8])?(x)?([a-h])([1-8])(=([QRNB]))?[+#]?$/ *)
Definition sanMove : regex :=
  Cat (Opt (Grp 1 pieceLetter))
    (Cat (Opt (Grp 2 file))
       (Cat (Opt (Grp 3 rank))
          (Cat (Opt (Grp 4 (Lit "x")))
             (Cat (Grp 5 file)
                (Cat (Grp 6 rank)
                   (Cat (Opt (Grp 7 (Cat (Lit "=") (Grp 8 pieceLetter))))
                      (Cat (Opt check) Eos))))))).

End Patterns.

(** ** Move objects *)

(** The object the tree builder creates for a move token
    ([{ number, move, san, isWhite, comment }]), to which a closing
    parenthesis adds [variations] and [processSequence] adds [fenAfter].
    A field that is absent is [None]. *)
#[local] Unset Elimination Schemes.
Inductive moveObj : Type :=
  MoveObj {
    number : Q;
    move : string;
    san : string;
    isWhite : bool;
    comment : string;
    variations : option (list (list moveObj));
    fenAfter : option string
  }.
#[local] Set Elimination Schemes.

(** ** The board *)

Module Board.
Import JsString.

Inductive cell : Type :=
| Hole
| Empty
| Piece (ch : ascii).

#[global] Instance cell_eq_dec : EqDecision cell.
Proof. solve_decision. Defined.

Abbreviation board := (list (list cell)) (only parsing).

Definition truthy (v : cell) : bool :=
  match v with Piece _ => true | _ => false end.

(** What reading an element gives: a hole reads as [undefined]. *)
Definition value (v : cell) : cell :=
  match v with Hole => Empty | _ => v end.

(** [b[r][c]]: a TypeError when [b[r]] is [undefined], and [undefined]
    when the row has no element [c]. *)
Definition get (b : board) (r c : nat) : completion cell :=
  match b !! r with
  | None => Throw
  | Some row =>
      match row !! c with
      | Some v => Normal (value v)
      | None => Normal Empty
      end
  end.

Definition getZ (b : board) (r c : Z) : completion cell :=
  if (r <? 0)%Z then Throw
  else if (c <? 0)%Z then
         match b !! Z.to_nat r with None => Throw | Some _ => Normal Empty end
       else get b (Z.to_nat r) (Z.to_nat c).

(** [row[c] = v]: an assignment past the end leaves holes behind. *)
Definition set_elem (row : list cell) (c : nat) (v : cell) : list cell :=
  if c <? length row then <[c := v]> row
  else row ++ replicate (c - length row) Hole ++ [v].

(** [b[r][c] = v] *)
Definition set (b : board) (r c : nat) (v : cell) : completion board :=
  match b !! r with
  | None => Throw
  | Some row => Normal (<[r := set_elem row c v]> b)
  end.

Definition setZ (b : board) (r c : Z) (v : cell) : completion board :=
  if (r <? 0)%Z then Throw
  else if (c <? 0)%Z then
         match b !! Z.to_nat r with None => Throw | Some _ => Normal b end
       else set b (Z.to_nat r) (Z.to_nat c) v.

(** [board.map(r => [...r])] *)
Definition copyBoard (b : board) : board := map (map value) b.

Definition initialFen : string :=
  "rnbqkbnr/pppppppp/8/8/8/8/PPPPPPPP/RNBQKBNR w KQkq - 0 1".

(** [Array(8).fill().map(() => Array(8).fill(null))] *)
Definition emptyBoard : board := replicate 8 (replicate 8 Empty).

(** The body of [rows.forEach((row, r) => ...)] of [fenToBoard]: the
    characters [row] that are left of rank [r], from column [c] on. *)
Fixpoint fillRow (b : board) (r c : nat) (row : string) : completion board :=
  match row with
  | EmptyString => Normal b
  | String ch row' =>
      if is_digit ch then fillRow b r (c + digit_value ch) row'
      else
        let! b' := set b r c (Piece ch) in
        fillRow b' r (S c) row'
  end.

Fixpoint fillRows (b : board) (r : nat) (rows : list string) : completion board :=
  match rows with
  | [] => Normal b
  | row :: rows' =>
      let! b' := fillRow b r 0 row in
      fillRows b' (S r) rows'
  end.

Definition fenToBoard (fen : string) : completion board :=
  let fen := if is_empty fen then initialFen else fen in
  let position := hd EmptyString (split " " fen) in
  let rows := split "/" position in
  fillRows emptyBoard 0 rows.

(** The body of [row.forEach(cell => ...)] of [boardToFen], on the pair
    of its two variables. *)
Definition fenStep (st : nat * string) (v : cell) : nat * string :=
  let '(empty, fen) := st in
  match v with
  | Hole => st
  | Empty => (S empty, fen)
  | Piece ch =>
      ((0, (if empty =? 0 then fen else fen +:+ of_nat empty) +:+ str ch))
  end.

Definition rowToFen (row : list cell) : string :=
  let '(empty, fen) := fold_left fenStep row (0, EmptyString) in
  if empty =? 0 then fen else fen +:+ of_nat empty.

Definition boardToFen (b : board) (active : string) : string :=
  join "/" (map rowToFen b) +:+ " " +:+ active +:+ " KQkq - 0 1".

(** [executeCastlingForColor] *)
Definition executeCastlingForColor (board : board) (isWhite kingside : bool)
  : completion Board.board :=
  let b := copyBoard board in
  let row := if isWhite then 7 else 0 in
  let K := if isWhite then "K"%char else "k"%char in
  let R := if isWhite then "R"%char else "r"%char in
  if kingside then
    let! b := set b row 4 Empty in
    let! b := set b row 6 (Piece K) in
    let! b := set b row 7 Empty in
    set b row 5 (Piece R)
  else
    let! b := set b row 4 Empty in
    let! b := set b row 2 (Piece K) in
    let! b := set b row 0 Empty in
    set b row 3 (Piece R).

End Board.

(** ** The move executor *)

Module Executor.
Import JsString Regex Board.

(** A group of a match as the one character it holds. *)
Definition groupChar (i : nat) (m : captures) : option ascii :=
  match group i m with
  | Some (String c _) => Some c
  | _ => None
  end.

(** The squares in the order of the two nested loops over [r] and [c]. *)
Definition squares : list (nat * nat) :=
  r ← seq 0 8; c ← seq 0 8; [(r, c)].

(** What the notation asks for: the constants that [executeMove] derives
    from the groups of the match. *)
Record request : Type :=
  Request {
    base : ascii;
    piece : ascii;
    sourceFile : option ascii;
    sourceRank : option ascii;
    tRow : Z;
    tCol : Z;
    promotion : option ascii
  }.

Definition requestOf (isWhite : bool) (m : captures) : completion request :=
  match groupChar 5 m, groupChar 6 m with
  | Some targetFile, Some targetRank =>
      let base := match groupChar 1 m with Some p => p | None => "P"%char end in
      Normal
        (Request base
           (if isWhite then toUpperCase base else toLowerCase base)
           (groupChar 2 m) (groupChar 3 m)
           (8 - Z.of_nat (digit_value targetRank))%Z
           (Z.of_nat (nat_of_ascii targetFile) - 97)%Z
           (groupChar 8 m))
  | _, _ => Throw
  end.

Section Resolve.
(** The working copy, the side to move and the request. *)
Variable b : board.
Variable isWhite : bool.
Variable rq : request.

(** The body of the inner loop: does [(r, c)] go into [potentials]? *)
Definition candidate (r c : nat) : completion bool :=
  let! here := get b r c in
  if negb (bool_decide (here = Piece (piece rq))) then Normal false
  else if match sourceFile rq with
          | Some f => negb (bool_decide (str f = str (ascii_of_nat (97 + c))))
          | None => false
          end then Normal false
  else if match sourceRank rq with
          | Some k => negb (bool_decide (str k = of_nat (8 - r)))
          | None => false
          end then Normal false
  else if ascii_eqb (base rq) "P" then
    let dir : Z := if isWhite then (-1)%Z else 1%Z in
    let rd := (tRow rq - Z.of_nat r)%Z in
    let cd := (tCol rq - Z.of_nat c)%Z in
    let! tgt := getZ b (tRow rq) (tCol rq) in
    let fwd := (cd =? 0)%Z && negb (truthy tgt) in
    let single := (cd =? 0)%Z && (rd =? dir)%Z && fwd in
    let! double :=
      if (cd =? 0)%Z
         && ((isWhite && (r =? 6) && (rd =? -2)%Z)
             || (negb isWhite && (r =? 1) && (rd =? 2)%Z))
      then
        let! between := getZ b (Z.of_nat r + dir) (Z.of_nat c) in
        Normal (negb (truthy between) && fwd)
      else Normal false in
    let cap := (Z.abs cd =? 1)%Z && (rd =? dir)%Z && truthy tgt in
    Normal (single || double || cap)
  else Normal true.

Fixpoint scan (sqs : list (nat * nat)) : completion (list (nat * nat)) :=
  match sqs with
  | [] => Normal []
  | (r, c) :: rest =>
      let! keep := candidate r c in
      let! found := scan rest in
      Normal (if keep then (r, c) :: found else found)
  end.

Definition potentials : completion (list (nat * nat)) := scan squares.

(** The two ray loops,
    [for (rr = r + sr, cc = c + sc; COND; rr += sr, cc += sc)
       if (b[rr][cc]) return false;
     return true;]
    where COND is [rr !== tRow] on a diagonal and
    [rr !== tRow || cc !== tCol] on a rank or file.  [fuel] bounds the
    number of tests of COND; [ray_fuel] shows that [rayFuel] is never
    used up. *)
Fixpoint ray (fuel : nat) (diagonal : bool) (rr cc sr sc : Z) : completion bool :=
  match fuel with
  | O => Throw
  | S fuel' =>
      if (if diagonal then negb (rr =? tRow rq)%Z
          else negb (rr =? tRow rq)%Z || negb (cc =? tCol rq)%Z)
      then
        let! v := getZ b rr cc in
        if truthy v then Normal false
        else ray fuel' diagonal (rr + sr) (cc + sc) sr sc
      else Normal true
  end.

Definition rayFuel (ar ac : Z) : nat := S (Z.to_nat (Z.max ar ac)).

(** The diagonal branch: [sr = dr / ar] and [sc = dc / ac]; when the
    piece stands on the target both are 0 / 0, which is NaN, and the
    first [b[rr][cc]] of the loop is a property access on the
    [undefined] that [b[NaN]] is. *)
Definition diagonalRay (r c : nat) (dr dc ar ac : Z) : completion bool :=
  if (ar =? 0)%Z then Throw
  else
    let sr := (dr / ar)%Z in
    let sc := (dc / ac)%Z in
    ray (rayFuel ar ac) true (Z.of_nat r + sr) (Z.of_nat c + sc) sr sc.

Definition straightRay (r c : nat) (dr dc ar ac : Z) : completion bool :=
  let sr := if (dr =? 0)%Z then 0%Z else (dr / ar)%Z in
  let sc := if (dc =? 0)%Z then 0%Z else (dc / ac)%Z in
  ray (rayFuel ar ac) false (Z.of_nat r + sr) (Z.of_nat c + sc) sr sc.

(** The callback of [potentials.filter] *)
Definition reaches (rc : nat * nat) : completion bool :=
  let '(r, c) := rc in
  let dr := (tRow rq - Z.of_nat r)%Z in
  let dc := (tCol rq - Z.of_nat c)%Z in
  let ar := Z.abs dr in
  let ac := Z.abs dc in
  let p := toUpperCase (base rq) in
  if ascii_eqb p "N" then
    Normal (((ar =? 2)%Z && (ac =? 1)%Z) || ((ar =? 1)%Z && (ac =? 2)%Z))
  else if ascii_eqb p "B" then
    if negb (ar =? ac)%Z then Normal false
    else diagonalRay r c dr dc ar ac
  else if ascii_eqb p "R" then
    if negb (dr =? 0)%Z && negb (dc =? 0)%Z then Normal false
    else straightRay r c dr dc ar ac
  else if ascii_eqb p "Q" then
    if (ar =? ac)%Z then diagonalRay r c dr dc ar ac
    else if (dr =? 0)%Z || (dc =? 0)%Z then straightRay r c dr dc ar ac
    else Normal false
  else if ascii_eqb p "K" then Normal ((ar <=? 1)%Z && (ac <=? 1)%Z)
  else Normal true.

(** [potentials.filter(...)]: a fault of the callback ends it. *)
Fixpoint valid (potentials : list (nat * nat)) : completion (list (nat * nat)) :=
  match potentials with
  | [] => Normal []
  | rc :: rest =>
      let! keep := reaches rc in
      let! kept := valid rest in
      Normal (if keep then rc :: kept else kept)
  end.

End Resolve.

(** What [executeMove] has decided when it stops reading its working
    copy [b]: to return it as it is, to castle, or to move the piece on
    [(r, c)]. *)
Inductive action : Type :=
| Return
| Castle (kingside : bool)
| MoveFrom (r c : nat) (rq : request).

(** [executeMove] from the trimmed notation up to
    [const [r, c] = valid[0] || potentials[0]] *)
Definition resolve (b : board) (isWhite : bool) (san : string) : completion action :=
  if is_empty san then Normal Return
  else if bool_decide (san = "O-O") || bool_decide (san = "0-0")
  then Normal (Castle true)
  else if bool_decide (san = "O-O-O") || bool_decide (san = "0-0-0")
  then Normal (Castle false)
  else
    match exec Patterns.sanMove san with
    | None => Normal Return
    | Some m =>
        let! rq := requestOf isWhite m in
        let! potentials := potentials b isWhite rq in
        if bool_decide (potentials = []) then Normal Return
        else
          let! valid := valid b rq potentials in
          match (match valid with rc :: _ => Some rc | [] => head potentials end) with
          | None => Normal Return
          | Some (r, c) => Normal (MoveFrom r c rq)
          end
    end.

(** The statements that write: the call of [executeCastlingForColor],
    or the two assignments and the promotion. *)
Definition perform (b : board) (isWhite : bool) (a : action) : completion board :=
  match a with
  | Return => Normal b
  | Castle kingside => executeCastlingForColor b isWhite kingside
  | MoveFrom r c rq =>
      let! v := get b r c in
      let! b := setZ b (tRow rq) (tCol rq) v in
      let! b := set b r c Empty in
      match promotion rq with
      | Some q =>
          setZ b (tRow rq) (tCol rq)
            (Piece (if isWhite then toUpperCase q else toLowerCase q))
      | None => Normal b
      end
  end.

(** [(moveObj?.san || moveObj?.move || '').trim()] *)
Definition notation (moveObj : moveObj) : string :=
  trim (if negb (is_empty (san moveObj)) then san moveObj else move moveObj).

(** The body of the [try] block of [executeMove] *)
Definition tryExecuteMove (board : board) (moveObj : moveObj) : completion Board.board :=
  let b := copyBoard board in
  let! a := resolve b (isWhite moveObj) (notation moveObj) in
  perform b (isWhite moveObj) a.

(** [executeMove]: the [catch] clause returns its argument. *)
Definition executeMove (board : board) (moveObj : moveObj) : Board.board :=
  match tryExecuteMove board moveObj with
  | Normal b => b
  | Throw => board
  end.

End Executor.

(** ** The parser *)

Module Parser.
Import JsString Regex Board Executor.

(** What [parsePGN] pushes onto its result for a chunk:
    [{ headers, moves: movesWithFen, initialFen: startFen }]. *)
Record game : Type :=
  Game {
    headers : gmap string string;
    moves : list moveObj;
    initialFen : string
  }.

(** *** Headers *)

(** [headers[key] = value] on the object literal [{}]: an own property,
    but for the key [__proto__], which Object.prototype inherits as an
    accessor whose setter ignores a string. *)
Definition setHeader (headers : gmap string string) (key value : string)
  : gmap string string :=
  if bool_decide (key = "__proto__") then headers else <[key := value]> headers.

(** The three variables of the loop over the lines of a chunk. *)
Record lineState : Type :=
  LineState {
    lineHeaders : gmap string string;
    moveText : list string;
    inHeaders : bool
  }.

Definition lineStep (st : lineState) (line : string) : lineState :=
  let trimmed := trim line in
  if is_empty trimmed then st
  else if inHeaders st && startsWith trimmed "[" then
    match exec Patterns.headerLine trimmed with
    | Some m =>
        match group 1 m, group 2 m with
        | Some key, Some value =>
            LineState (setHeader (lineHeaders st) key value) (moveText st) (inHeaders st)
        | _, _ => st
        end
    | None => st
    end
  else LineState (lineHeaders st) (moveText st ++ [trimmed]) false.

Definition readLines (lines : list string) : lineState :=
  fold_left lineStep lines (LineState ∅ [] true).

(** *** Tokens *)

Definition rawTokens (movesString : string) : list string :=
  filter (fun t => negb (is_empty t) && negb (is_empty (trim t)))
    (Regex.split true Patterns.tokenSeparator movesString).

(** The tests of the loop over the tokens, on a trimmed token. *)
Definition isComment (tok : string) : bool :=
  startsWith tok "{" && endsWith tok "}".
Definition isOpen (tok : string) : bool := bool_decide (tok = "(").
Definition isClose (tok : string) : bool := bool_decide (tok = ")").
Definition isSan (tok : string) : bool := test Patterns.sanRegex tok.

Definition commentText (tok : string) : string := trim (slice_1_m1 tok).

(** *** The tree builder *)

(** The variables of the loop over the tokens.  [sequenceStack] has the
    sequence on top first; its last element is the array [moves].
    [pending] is the variable [comment] of the source. *)
Record builder : Type :=
  Builder {
    sequenceStack : list (list moveObj);
    pending : string;
    expectingBlack : bool;
    moveNumber : N
  }.

Definition initialBuilder : builder := Builder [[]] "" false 1%N.

Definition addVariation (m : moveObj) (finished : list moveObj) : moveObj :=
  match m with
  | MoveObj n mv s w cm vars fen =>
      MoveObj n mv s w cm
        (Some (match vars with Some vs => vs | None => [] end ++ [finished])) fen
  end.

(** The branch of [tok === ')'] *)
Definition closeVariation (st : builder) : completion builder :=
  match sequenceStack st with
  | finished :: currentSeq :: below =>
      match last currentSeq with
      | Some lastNode =>
          Normal (Builder
                    ((removelast currentSeq ++ [addVariation lastNode finished]) :: below)
                    (pending st) (expectingBlack st) (moveNumber st))
      | None =>
          Normal (Builder (currentSeq :: below)
                    (pending st) (expectingBlack st) (moveNumber st))
      end
  | _ => Throw
  end.

(** The branch of a token that the notation pattern accepts *)
Definition addMove (st : builder) (tok : string) : completion builder :=
  let isWhite := negb (expectingBlack st) in
  let n := inject_Z (Z.of_N (moveNumber st)) in
  let moveObj :=
    MoveObj (if isWhite then n else Qplus n (1 # 2)) tok tok isWhite (pending st)
      None None in
  match sequenceStack st with
  | top :: below =>
      Normal (Builder ((top ++ [moveObj]) :: below) ""
                (negb (expectingBlack st))
                (if isWhite then moveNumber st else (moveNumber st + 1)%N))
  | [] => Throw
  end.

Definition tokenStep (st : builder) (tok : string) : completion builder :=
  let tok := trim tok in
  if is_empty tok then Normal st
  else if isComment tok then
    Normal (Builder (sequenceStack st) (commentText tok)
              (expectingBlack st) (moveNumber st))
  else if isOpen tok then
    Normal (Builder ([] :: sequenceStack st) (pending st)
              (expectingBlack st) (moveNumber st))
  else if isClose tok then closeVariation st
  else
    match exec Patterns.numMatch tok with
    | Some m =>
        Normal (Builder (sequenceStack st) (pending st)
                  (match group 2 m with
                   | Some g => negb (is_empty g)
                   | None => false
                   end)
                  (match group 1 m with
                   | Some digits => parseInt digits
                   | None => moveNumber st
                   end))
    | None =>
        if isSan tok then addMove st tok else Normal st
    end.

Fixpoint build (st : builder) (toks : list string) : completion builder :=
  match toks with
  | [] => Normal st
  | tok :: rest =>
      let! st' := tokenStep st tok in
      build st' rest
  end.

(** The array [moves] once the tokens are consumed *)
Definition mainLine (st : builder) : list moveObj :=
  match last (sequenceStack st) with
  | Some moves => moves
  | None => []
  end.

(** *** The game assembler *)

(** The callback of [seq.map] in [processSequence]: the updated move
    and the value of [currentBoard] it leaves. *)
Fixpoint processMove (m : moveObj) (currentBoard : board) {struct m}
  : moveObj * board :=
  let beforeBoard := copyBoard currentBoard in
  let currentBoard := executeMove currentBoard m in
  match m with
  | MoveObj n mv s w cm vars _ =>
      let activeColor := if w then "b" else "w" in
      let fenAfter := boardToFen currentBoard activeColor in
      (MoveObj n mv s w cm
         (match vars with
          | Some vs =>
              Some (map (fun v =>
                           (fix walk (seq : list moveObj) (cur : board) :=
                              match seq with
                              | [] => []
                              | m' :: rest =>
                                  let '(u, cur') := processMove m' cur in
                                  u :: walk rest cur'
                              end) v (copyBoard beforeBoard)) vs)
          | None => None
          end)
         (Some fenAfter),
       currentBoard)
  end.

Fixpoint walk (seq : list moveObj) (currentBoard : board) : list moveObj :=
  match seq with
  | [] => []
  | m :: rest =>
      let '(u, currentBoard') := processMove m currentBoard in
      u :: walk rest currentBoard'
  end.

Definition processSequence (seq : list moveObj) (board : board) : list moveObj :=
  walk seq (copyBoard board).

(** *** One chunk, and the whole text *)

Definition startFenOf (headers : gmap string string) : string :=
  match headers !! "FEN" with
  | Some fen =>
      if negb (is_empty fen)
         && (bool_decide (headers !! "SetUp" = Some "1")
             || bool_decide (headers !! "SetUp" = Some "true"))
      then trim fen else Board.initialFen
  | None => Board.initialFen
  end.

(** The body of the [try] block of the loop over the chunks: the record
    it pushes onto [result], if any. *)
Definition processChunk (raw : string) : completion (option game) :=
  let lines := JsString.split lf raw in
  let st := readLines lines in
  let headers := lineHeaders st in
  let movesString := join " " (moveText st) in
  let! final := build initialBuilder (rawTokens movesString) in
  let moves := mainLine final in
  let startFen := startFenOf headers in
  let! startBoard := fenToBoard startFen in
  let movesWithFen := processSequence moves startBoard in
  if negb (bool_decide (movesWithFen = [])) || negb (size headers =? 0)
  then Normal (Some (Game headers movesWithFen startFen))
  else Normal None.

Definition rawGames (pgnText : string) : list string :=
  filter (fun s => negb (is_empty s)
                   && (includes s "[Event" || search Patterns.numberedMove s))
    (map trim (Regex.split false Patterns.gameBoundary (remove_all cr pgnText))).

(** One turn of [for (const raw of rawGames) try { ... } catch { }] *)
Definition chunkStep (result : list game) (raw : string) : list game :=
  match processChunk raw with
  | Normal (Some g) => result ++ [g]
  | Normal None => result
  | Throw => result
  end.

Definition parsePGN (pgnText : string) : list game :=
  if is_empty (trim pgnText) then []
  else fold_left chunkStep (rawGames pgnText) [].

End Parser.

(** ** Boards as objects: the store of arrays

    [executeMove] and [executeCastlingForColor] once more, on references:
    a board is the location of an array of locations of rows, copying
    allocates, and an assignment [b[r][c] = v] updates the row that
    [b[r]] refers to, whoever else refers to it.  What the executor reads
    before its first assignment it reads from its working copy, so the
    decision is [Executor.resolve] on the contents of that copy. *)

Module Store.
Import JsString Regex Board Executor.

Abbreviation loc := nat (only parsing).

Inductive object : Type :=
| RowArray (cells : list cell)
| BoardArray (rows : list loc).

Abbreviation heap := (list object) (only parsing).

(** A computation on the store that may throw. *)
Definition action_on (A : Type) : Type := heap -> heap * completion A.

Definition ret {A} (a : A) : action_on A := fun h => (h, Normal a).
Definition throw {A} : action_on A := fun h => (h, Throw).

Definition bind {A B} (m : action_on A) (k : A -> action_on B) : action_on B :=
  fun h =>
    match m h with
    | (h', Normal a) => k a h'
    | (h', Throw) => (h', Throw)
    end.

Notation "'do!' x ':=' m 'in' k" := (bind m (fun x => k))
  (at level 10, x pattern, m at level 100, k at level 200).

Definition alloc (o : object) : action_on loc :=
  fun h => (h ++ [o], Normal (length h)).

(** [[...r]] *)
Definition spreadRow (l : loc) : action_on loc :=
  fun h =>
    match h !! l with
    | Some (RowArray cells) => alloc (RowArray (map value cells)) h
    | _ => (h, Throw)
    end.

Fixpoint spreadRows (ls : list loc) : action_on (list loc) :=
  match ls with
  | [] => ret []
  | l :: rest =>
      do! l' := spreadRow l in
      do! rest' := spreadRows rest in
      ret (l' :: rest')
  end.

(** [board.map(r => [...r])] *)
Definition copyBoard (board : loc) : action_on loc :=
  fun h =>
    match h !! board with
    | Some (BoardArray rows) =>
        (do! rows' := spreadRows rows in alloc (BoardArray rows')) h
    | _ => (h, Throw)
    end.

(** The rows of the board at [board], read through the two references. *)
Definition rowAt (h : heap) (l : loc) : option (list cell) :=
  match h !! l with
  | Some (RowArray cells) => Some cells
  | _ => None
  end.

Definition contents (h : heap) (board : loc) : option Board.board :=
  match h !! board with
  | Some (BoardArray rows) => mapM (rowAt h) rows
  | _ => None
  end.

(** [b[r][c]] *)
Definition get (b : loc) (r c : nat) : action_on cell :=
  fun h =>
    match h !! b with
    | Some (BoardArray rows) =>
        match rows !! r with
        | Some l =>
            match h !! l with
            | Some (RowArray cells) =>
                (h, Normal (match cells !! c with Some v => value v | None => Empty end))
            | _ => (h, Throw)
            end
        | None => (h, Throw)
        end
    | _ => (h, Throw)
    end.

(** [b[r][c] = v] *)
Definition set (b : loc) (r c : nat) (v : cell) : action_on unit :=
  fun h =>
    match h !! b with
    | Some (BoardArray rows) =>
        match rows !! r with
        | Some l =>
            match h !! l with
            | Some (RowArray cells) =>
                (<[l := RowArray (set_elem cells c v)]> h, Normal tt)
            | _ => (h, Throw)
            end
        | None => (h, Throw)
        end
    | _ => (h, Throw)
    end.

Definition setZ (b : loc) (r c : Z) (v : cell) : action_on unit :=
  if (r <? 0)%Z then throw
  else if (c <? 0)%Z then
         fun h =>
           match h !! b with
           | Some (BoardArray rows) =>
               match rows !! Z.to_nat r with
               | Some _ => (h, Normal tt)
               | None => (h, Throw)
               end
           | _ => (h, Throw)
           end
       else set b (Z.to_nat r) (Z.to_nat c) v.

Definition executeCastlingForColor (board : loc) (isWhite kingside : bool)
  : action_on loc :=
  do! b := copyBoard board in
  let row := if isWhite then 7 else 0 in
  let K := if isWhite then "K"%char else "k"%char in
  let R := if isWhite then "R"%char else "r"%char in
  if kingside then
    do! _ := set b row 4 Empty in
    do! _ := set b row 6 (Piece K) in
    do! _ := set b row 7 Empty in
    do! _ := set b row 5 (Piece R) in
    ret b
  else
    do! _ := set b row 4 Empty in
    do! _ := set b row 2 (Piece K) in
    do! _ := set b row 0 Empty in
    do! _ := set b row 3 (Piece R) in
    ret b.

Definition perform (b : loc) (isWhite : bool) (a : action) : action_on loc :=
  match a with
  | Return => ret b
  | Castle kingside => executeCastlingForColor b isWhite kingside
  | MoveFrom r c rq =>
      do! v := get b r c in
      do! _ := setZ b (tRow rq) (tCol rq) v in
      do! _ := set b r c Empty in
      match promotion rq with
      | Some q =>
          do! _ := setZ b (tRow rq) (tCol rq)
                     (Piece (if isWhite then toUpperCase q else toLowerCase q)) in
          ret b
      | None => ret b
      end
  end.

(** The body of the [try] block *)
Definition tryExecuteMove (board : loc) (moveObj : moveObj) : action_on loc :=
  do! b := copyBoard board in
  fun h =>
    match contents h b with
    | Some snapshot =>
        (match resolve snapshot (isWhite moveObj) (notation moveObj) with
         | Normal a => perform b (isWhite moveObj) a
         | Throw => throw
         end) h
    | None => (h, Throw)
    end.

(** [executeMove]: the store it leaves and the reference it returns. *)
Definition executeMove (board : loc) (moveObj : moveObj) (h : heap) : heap * loc :=
  match tryExecuteMove board moveObj h with
  | (h', Normal b) => (h', b)
  | (h', Throw) => (h', board)
  end.

(** The store that holds [b] alone, at the location returned. *)
Definition store_of (b : Board.board) : heap * loc :=
  (map RowArray b ++ [BoardArray (seq 0 (length b))], length b).

End Store.

(** ** Vocabulary of the statements

    Sample inputs, and the notions that the statements below are written
    with. *)

Module Samples.
Import JsString Board.

(** A rank written with a dot for an empty square. *)
Fixpoint rankOf (s : string) : list cell :=
  match s with
  | EmptyString => []
  | String c s' => (if ascii_eqb c "." then Empty else Piece c) :: rankOf s'
  end.

Definition startBoard : board :=
  [ rankOf "rnbqkbnr"; rankOf "pppppppp"; rankOf "........"; rankOf "........";
    rankOf "........"; rankOf "........"; rankOf "PPPPPPPP"; rankOf "RNBQKBNR" ].

(** The move object the builder makes for [tok], comment and number apart. *)
Definition mv (tok : string) (white : bool) : moveObj :=
  MoveObj 1 tok tok white "" None None.

(** [[Key QvalueQ]] *)
Definition tag (key value : string) : string :=
  "[" +:+ key +:+ " " +:+ str quote +:+ value +:+ str quote +:+ "]".

Definition nl : string := str lf.

Definition variationSample : list moveObj :=
  [ mv "e4" true;
    MoveObj (3 # 2) "e5" "e5" false "" (Some [[mv "c5" false]]) None;
    mv "Nf3" true ].

Definition nineRanks : string :=
  tag "Event" "x" +:+ nl +:+ tag "SetUp" "1" +:+ nl
  +:+ tag "FEN" "8/8/8/8/8/8/8/8/p w - - 0 1".

Definition twoChunks : string :=
  tag "Event" "a" +:+ nl +:+ nl +:+ "1. e4 )"
  +:+ nl +:+ nl
  +:+ tag "Event" "b" +:+ nl +:+ nl +:+ "1. d4".

End Samples.

Module Shape.
Import JsString Board.

Definition pieceLetters : string := "KQRBNPkqrbnp".

(** A cell of a valid placement: empty, or one of the twelve piece letters. *)
Definition validCell (v : cell) : bool :=
  match v with
  | Empty => true
  | Piece ch => one_of pieceLetters ch
  | Hole => false
  end.

(** An 8x8 board with a valid placement. *)
Definition validBoard (b : board) : bool :=
  (length b =? 8) && forallb (fun row => (length row =? 8) && forallb validCell row) b.

Definition noHole (v : cell) : bool :=
  match v with Hole => false | _ => true end.

(** A board without holes, of any shape. *)
Definition holeFree (b : board) : bool := forallb (forallb noHole) b.

Fixpoint all_chars (p : ascii -> bool) (s : string) : bool :=
  match s with
  | EmptyString => true
  | String c s' => p c && all_chars p s'
  end.

(** What [boardToFen] appends for a run of [empty] squares. *)
Definition flush (empty : nat) : string :=
  if empty =? 0 then EmptyString else of_nat empty.

(** [rowToFen] from the left, with [empty] squares pending. *)
Fixpoint encodeFrom (empty : nat) (row : list cell) : string :=
  match row with
  | [] => flush empty
  | Hole :: rest => encodeFrom empty rest
  | Empty :: rest => encodeFrom (S empty) rest
  | Piece ch :: rest => flush empty +:+ str ch +:+ encodeFrom 0 rest
  end.

Definition emptyRow : list cell := replicate 8 Empty.

Definition plain (c : ascii) : bool :=
  negb (ascii_eqb c "/") && negb (ascii_eqb c " ").

End Shape.

Module Notions.
Import JsString Regex Board Executor.

Definition isCastling (san : string) : bool :=
  bool_decide (san = "O-O") || bool_decide (san = "0-0")
  || bool_decide (san = "O-O-O") || bool_decide (san = "0-0-0").

(** The source squares that candidate enumeration leaves on the working
    copy [b]: the array [potentials] of [executeMove], and none for a
    notation that the pattern of [executeMove] rejects. *)
Definition enumerated (b : board) (isWhite : bool) (san : string)
  : completion (list (nat * nat)) :=
  match exec Patterns.sanMove san with
  | None => Normal []
  | Some m =>
      let! rq := requestOf isWhite m in
      potentials b isWhite rq
  end.

(** Those that remain after the movement-geometry filter: the array
    [valid] of [executeMove]. *)
Definition remaining (b : board) (isWhite : bool) (san : string)
  : completion (list (nat * nat)) :=
  match exec Patterns.sanMove san with
  | None => Normal []
  | Some m =>
      let! rq := requestOf isWhite m in
      let! found := potentials b isWhite rq in
      valid b rq found
  end.

(** The board after the moves [ms], played from a copy of [board]. *)
Definition replay (ms : list moveObj) (board : board) : Board.board :=
  fold_left executeMove ms (copyBoard board).

(** The active-colour field of the position string after [m]. *)
Definition activeColor (m : moveObj) : string :=
  if isWhite m then "b" else "w".

(** A token that the loop of the builder takes for a comment. *)
Definition commentToken (t : string) : bool :=
  negb (is_empty (trim t)) && Parser.isComment (trim t).

(** A token that the loop of the builder takes for a move: it reaches the
    test against the notation pattern and passes it. *)
Definition moveToken (t : string) : bool :=
  let tok := trim t in
  negb (is_empty tok) && negb (Parser.isComment tok) && negb (Parser.isOpen tok)
  && negb (Parser.isClose tok)
  && match exec Patterns.numMatch tok with Some _ => false | None => true end
  && Parser.isSan tok.

(** The header tag pairs and the tokens that a chunk yields. *)
Definition chunkHeaders (raw : string) : gmap string string :=
  Parser.lineHeaders (Parser.readLines (JsString.split lf raw)).

Definition chunkTokens (raw : string) : list string :=
  Parser.rawTokens
    (join " " (Parser.moveText (Parser.readLines (JsString.split lf raw)))).

(** The records that the loop over the chunks makes of [chunks] alone. *)
Definition recordsOf (chunks : list string) : list Parser.game :=
  fold_left Parser.chunkStep chunks [].

(** What one chunk adds to the result. *)
Definition contribution (raw : string) : list Parser.game :=
  Parser.chunkStep [] raw.

End Notions.

Module StoreNotions.
Import Board Store.

(** [h] still holds every object of [h0], as it was. *)
Definition extends (h0 h : list object) : Prop :=
  length h0 <= length h /\ forall l, l < length h0 -> h !! l = h0 !! l.

(** [b] is a board made since: the array and its rows are new objects. *)
Definition made_since (h0 h : list object) (b : nat) : Prop :=
  length h0 <= b /\
  exists rows, h !! b = Some (BoardArray rows) /\ Forall (fun l => length h0 <= l) rows.

(** [m], run where [P] holds, leaves [h0] as it was, and [Q] holds of
    what it returns. *)
Definition sound {A} (h0 : list object) (P : list object -> Prop) (m : action_on A)
    (Q : A -> list object -> Prop) : Prop :=
  forall h h' res,
    extends h0 h -> P h -> m h = (h', res) ->
    extends h0 h' /\ match res with Normal a => Q a h' | Throw => True end.

(** The board at [b] has the rows [brd], each in an array of its own. *)
Definition holds (h : list object) (b : nat) (brd : list (list cell)) : Prop :=
  exists rows,
    h !! b = Some (BoardArray rows) /\ NoDup rows /\
    Forall2 (fun l cells => h !! l = Some (RowArray cells)) rows brd.

(** What a computation on the store returns, against the completion of
    the same computation on values. *)
Definition agrees (out : list object * completion nat)
    (pure : completion (list (list cell))) : Prop :=
  match pure with
  | Normal brd => exists b, out.2 = Normal b /\ holds out.1 b brd
  | Throw => out.2 = Throw
  end.

End StoreNotions.

Module BuilderNotions.
Import JsString Parser.

(** Two states of the builder that differ at most in the pending comment. *)
Definition same_but_pending (a b : builder) : Prop :=
  sequenceStack a = sequenceStack b
  /\ expectingBlack a = expectingBlack b
  /\ moveNumber a = moveNumber b.

Definition same_outcome (x y : completion builder) : Prop :=
  match x, y with
  | Normal a, Normal b => same_but_pending a b
  | Throw, Throw => True
  | _, _ => False
  end.

(** The nodes of the open sequences, whatever the comment still pending. *)
Definition treeOf (out : completion builder) : completion (list (list moveObj)) :=
  match out with
  | Normal st => Normal (sequenceStack st)
  | Throw => Throw
  end.

(** A line that leaves the header mode on: blank, or starting with a
    bracket. *)
Definition headerCandidate (line : string) : bool :=
  is_empty (trim line) || startsWith (trim line) "[".

(** The lines that are pushed onto [moveText] once the header mode is off. *)
Fixpoint moveLines (lines : list string) : list string :=
  match lines with
  | [] => []
  | line :: rest =>
      if is_empty (trim line) then moveLines rest else trim line :: moveLines rest
  end.

End BuilderNotions.

Module RegexNotions.
Import JsString Regex.

(** Every group of [r] whose body is one character class records a
    character of that class accepted by [I], and every other group
    records only texts that [I] accepts. *)
Fixpoint groupsWithin (I : nat -> string -> Prop) (r : regex) : Prop :=
  match r with
  | Grp i (Chr p) => forall c, p c = true -> I i (str c)
  | Grp i r1 => (forall text, I i text) /\ groupsWithin I r1
  | Cat r1 r2 | Alt r1 r2 => groupsWithin I r1 /\ groupsWithin I r2
  | Opt r1 | Star r1 | Look r1 => groupsWithin I r1
  | Chr _ | Eps | Eos => True
  end.

Definition within (I : nat -> string -> Prop) (caps : captures) : Prop :=
  Forall (fun ix => I ix.1 ix.2) caps.

(** A continuation that hands on only groups that [I] accepts. *)
Definition keeps (I : nat -> string -> Prop) (k : continuation)
    (res : string * captures) : Prop :=
  forall s caps, within I caps -> k s caps = Some res -> within I res.2.

(** The target square that the pattern of [executeMove] can record. *)
Definition targetGroups (i : nat) (text : string) : Prop :=
  (i = 5 -> exists c, text = str c /\ in_range "a" "h" c = true)
  /\ (i = 6 -> exists c, text = str c /\ in_range "1" "8" c = true).

End RegexNotions.

Module ShapeNotions.
Import JsString Board.

(** Eight rows of at least eight cells each: what [fenToBoard] returns. *)
Definition Wide (b : list (list cell)) : Prop :=
  length b = 8 /\ Forall (fun row => 8 <= length row) b.

(** And no hole in them: the boards that [processSequence] handles. *)
Definition Shaped (b : list (list cell)) : Prop :=
  length b = 8 /\ Forall (fun row => 8 <= length row /\ Forall (fun v => v <> Hole) row) b.

End ShapeNotions.

(** * Properties *)

Module StringFacts.
Import JsString Shape.

Lemma sapp_cons c s t : String c s +:+ t = String c (s +:+ t).
Proof. reflexivity. Qed.

Lemma sapp_nil_l s : EmptyString +:+ s = s.
Proof. reflexivity. Qed.

Lemma sapp_nil_r s : s +:+ EmptyString = s.
Proof. induction s as [|c s IH]; [reflexivity|]. rewrite sapp_cons, IH. reflexivity. Qed.

Lemma sapp_assoc s t u : (s +:+ t) +:+ u = s +:+ (t +:+ u).
Proof.
  induction s as [|c s IH]; [reflexivity|].
  rewrite !sapp_cons, IH. reflexivity.
Qed.

Lemma all_chars_app p s t :
  all_chars p (s +:+ t) = all_chars p s && all_chars p t.
Proof.
  induction s as [|c s IH]; [reflexivity|].
  rewrite sapp_cons. simpl. rewrite IH. destruct (p c); reflexivity.
Qed.

Lemma ascii_eqb_eq a b : ascii_eqb a b = true <-> a = b.
Proof. unfold ascii_eqb. rewrite bool_decide_eq_true. reflexivity. Qed.

Lemma ascii_eqb_refl a : ascii_eqb a a = true.
Proof. apply ascii_eqb_eq. reflexivity. Qed.

Lemma split_no_sep sep s :
  all_chars (fun c => negb (ascii_eqb c sep)) s = true ->
  JsString.split sep s = [s].
Proof.
  induction s as [|c s IH]; [reflexivity|].
  simpl. intros H. apply andb_prop in H as [Hc Hs].
  apply negb_true_iff in Hc. rewrite Hc, (IH Hs). reflexivity.
Qed.

Lemma split_at_sep sep s t :
  all_chars (fun c => negb (ascii_eqb c sep)) s = true ->
  JsString.split sep (s +:+ String sep t) = s :: JsString.split sep t.
Proof.
  induction s as [|c s IH]; intros H.
  - rewrite sapp_nil_l. simpl. rewrite ascii_eqb_refl. reflexivity.
  - simpl in H. apply andb_prop in H as [Hc Hs].
    apply negb_true_iff in Hc.
    rewrite sapp_cons. simpl. rewrite Hc, (IH Hs). reflexivity.
Qed.

Lemma split_join sep rows :
  rows <> [] ->
  Forall (fun s => all_chars (fun c => negb (ascii_eqb c sep)) s = true) rows ->
  JsString.split sep (join (str sep) rows) = rows.
Proof.
  induction rows as [|s rows IH]; [congruence|].
  intros _ Hall. inversion Hall as [|? ? Hs Hrest]; subst.
  destruct rows as [|s' rows].
  - simpl. apply split_no_sep. exact Hs.
  - change (join (str sep) (s :: s' :: rows))
      with (s +:+ str sep +:+ join (str sep) (s' :: rows)).
    unfold str at 1. rewrite sapp_cons, sapp_nil_l.
    rewrite (split_at_sep _ _ _ Hs), IH; [reflexivity|congruence|exact Hrest].
Qed.

Lemma is_empty_app_cons s c t : is_empty (s +:+ String c t) = false.
Proof. destruct s; reflexivity. Qed.

End StringFacts.

(** ** The position string read back *)

Module RoundTrip.
Import JsString Board Shape StringFacts.

Lemma flush_spec empty fen :
  (if empty =? 0 then fen else fen +:+ of_nat empty) = fen +:+ flush empty.
Proof.
  unfold flush. destruct (empty =? 0); [|reflexivity].
  symmetry. apply sapp_nil_r.
Qed.

Lemma fold_fenStep row : forall empty fen,
  (let '(e, f) := fold_left fenStep row (empty, fen) in f +:+ flush e)
  = fen +:+ encodeFrom empty row.
Proof.
  induction row as [|v row IH]; intros empty fen; [reflexivity|].
  destruct v as [| |ch]; simpl.
  - apply IH.
  - apply IH.
  - rewrite IH, flush_spec, !sapp_assoc. reflexivity.
Qed.

Lemma rowToFen_encode row : rowToFen row = encodeFrom 0 row.
Proof.
  unfold rowToFen.
  pose proof (fold_fenStep row 0 EmptyString) as H.
  destruct (fold_left fenStep row (0, EmptyString)) as [e f].
  rewrite flush_spec, H. reflexivity.
Qed.

(** A run of at most eight empty squares is one digit, which moves the
    column by as much. *)
Lemma fillRow_flush b r c empty s :
  empty <= 8 ->
  fillRow b r c (flush empty +:+ s) = fillRow b r (c + empty) s.
Proof.
  intros H.
  destruct empty as [|[|[|[|[|[|[|[|[|n]]]]]]]]]; try lia;
    try reflexivity.
  rewrite Nat.add_0_r. reflexivity.
Qed.

Lemma piece_letter_cases ch :
  one_of pieceLetters ch = true ->
  is_digit ch = false /\ ascii_eqb ch "/" = false /\ ascii_eqb ch " " = false.
Proof.
  destruct ch as [[] [] [] [] [] [] [] []]; vm_compute; intros H;
    try discriminate H; repeat split.
Qed.

Lemma fillRow_encode row : forall b r done empty,
  Forall (fun v => validCell v = true) row ->
  empty + length row <= 8 ->
  b !! r = Some (done ++ replicate (empty + length row) Empty) ->
  fillRow b r (length done) (encodeFrom empty row)
  = Normal (<[r := done ++ replicate empty Empty ++ row]> b).
Proof.
  induction row as [|v row IH]; intros b r done empty Hvalid Hlen Hrow.
  - simpl in *. rewrite <- (sapp_nil_r (flush empty)), fillRow_flush by lia.
    simpl. rewrite Nat.add_0_r in Hrow. rewrite app_nil_r.
    rewrite list_insert_id; [reflexivity|exact Hrow].
  - inversion Hvalid as [|? ? Hv Hrest]; subst.
    destruct v as [| |ch]; [discriminate Hv| |]; simpl encodeFrom.
    + rewrite (IH b r done (S empty)); [|exact Hrest|simpl in *; lia|].
      * f_equal. f_equal. f_equal.
        rewrite replicate_S_end, <- app_assoc. reflexivity.
      * rewrite Hrow. f_equal. f_equal. f_equal. simpl. lia.
    + apply piece_letter_cases in Hv as (Hdig & _ & _).
      rewrite fillRow_flush by lia.
      unfold str. rewrite sapp_cons, sapp_nil_l. simpl fillRow. rewrite Hdig.
      unfold set. rewrite Hrow. simpl cbind.
      assert (Hset :
        set_elem (done ++ replicate (empty + S (length row)) Empty)
          (length done + empty) (Piece ch)
        = (done ++ replicate empty Empty ++ [Piece ch]) ++ replicate (0 + length row) Empty).
      { unfold set_elem.
        rewrite length_app, length_replicate.
        destruct (Nat.ltb_spec (length done + empty) (length done + (empty + S (length row))));
          [|lia].
        rewrite insert_app_r_alt by lia.
        replace (length done + empty - length done) with empty by lia.
        rewrite replicate_add. rewrite insert_app_r_alt by (rewrite length_replicate; lia).
        rewrite length_replicate, Nat.sub_diag. simpl.
        rewrite <- !app_assoc. reflexivity. }
      rewrite Hset.
      replace (S (length done + empty))
        with (length (done ++ replicate empty Empty ++ [Piece ch]))
        by (rewrite !length_app, length_replicate; simpl; lia).
      rewrite IH; [|exact Hrest|simpl in *; lia|].
      * rewrite list_insert_insert_eq. f_equal. f_equal.
        simpl. rewrite <- !app_assoc. reflexivity.
      * apply list_lookup_insert_eq. eapply lookup_lt_Some. exact Hrow.
Qed.

Lemma fillRows_encode rest : forall done,
  Forall (fun row => length row = 8 /\ Forall (fun v => validCell v = true) row) rest ->
  fillRows (done ++ replicate (length rest) emptyRow) (length done) (map rowToFen rest)
  = Normal (done ++ rest).
Proof.
  induction rest as [|row rest IH]; intros done Hall.
  - simpl. rewrite app_nil_r. reflexivity.
  - inversion Hall as [|? ? [Hlen Hvalid] Hrest]; subst.
    simpl map. simpl fillRows. rewrite rowToFen_encode.
    rewrite (fillRow_encode row _ _ [] 0); [|exact Hvalid|lia|].
    + simpl cbind. simpl app.
      rewrite insert_app_r_alt by lia. rewrite Nat.sub_diag. simpl.
      replace (done ++ row :: replicate (length rest) emptyRow)
        with ((done ++ [row]) ++ replicate (length rest) emptyRow)
        by (rewrite <- app_assoc; reflexivity).
      replace (S (length done)) with (length (done ++ [row]))
        by (rewrite length_app; simpl; lia).
      rewrite IH by exact Hrest. rewrite <- app_assoc. reflexivity.
    + rewrite lookup_app_r by lia. rewrite Nat.sub_diag. simpl. rewrite Hlen.
      reflexivity.
Qed.

Lemma flush_plain empty : empty <= 8 -> all_chars plain (flush empty) = true.
Proof.
  intros H.
  destruct empty as [|[|[|[|[|[|[|[|[|n]]]]]]]]]; try lia; reflexivity.
Qed.

Lemma encode_plain row : forall empty,
  Forall (fun v => validCell v = true) row ->
  empty + length row <= 8 ->
  all_chars plain (encodeFrom empty row) = true.
Proof.
  induction row as [|v row IH]; intros empty Hvalid Hlen.
  - simpl in *. apply flush_plain. lia.
  - inversion Hvalid as [|? ? Hv Hrest]; subst.
    destruct v as [| |ch]; [discriminate Hv| |]; simpl encodeFrom.
    + apply IH; [exact Hrest|simpl in *; lia].
    + rewrite !all_chars_app, flush_plain by lia.
      rewrite IH by (try exact Hrest; simpl in *; lia).
      apply piece_letter_cases in Hv as (_ & Hslash & Hspace).
      simpl. unfold plain. rewrite Hslash, Hspace. reflexivity.
Qed.

Lemma all_chars_weaken (p q : ascii -> bool) s :
  (forall c, p c = true -> q c = true) ->
  all_chars p s = true -> all_chars q s = true.
Proof.
  intros Hpq. induction s as [|c s IH]; [reflexivity|].
  simpl. intros H. apply andb_prop in H as [Hc Hs].
  rewrite (Hpq _ Hc), (IH Hs). reflexivity.
Qed.

Lemma join_plain rows :
  Forall (fun s => all_chars plain s = true) rows ->
  all_chars (fun c => negb (ascii_eqb c " ")) (join "/" rows) = true.
Proof.
  induction rows as [|s rows IH]; [reflexivity|].
  intros Hall. inversion Hall as [|? ? Hs Hrest]; subst.
  assert (Hs' : all_chars (fun c => negb (ascii_eqb c " ")) s = true).
  { eapply all_chars_weaken; [|exact Hs].
    intros c Hc. unfold plain in Hc. apply andb_prop in Hc as [_ Hc]. exact Hc. }
  destruct rows as [|s' rows]; [exact Hs'|].
  change (join "/" (s :: s' :: rows)) with (s +:+ "/" +:+ join "/" (s' :: rows)).
  rewrite !all_chars_app, Hs', (IH Hrest). reflexivity.
Qed.

Lemma forallb_Forall {A} (f : A -> bool) (l : list A) :
  forallb f l = true -> Forall (fun x => f x = true) l.
Proof.
  induction l as [|x l IH]; simpl; intros H; [constructor|].
  apply andb_prop in H as [Hx Hl]. constructor; [exact Hx|exact (IH Hl)].
Qed.

Lemma validBoard_spec b :
  validBoard b = true ->
  length b = 8 /\
  Forall (fun row => length row = 8 /\ Forall (fun v => validCell v = true) row) b.
Proof.
  unfold validBoard. intros H. apply andb_prop in H as [Hlen Hrows].
  apply Nat.eqb_eq in Hlen. split; [exact Hlen|].
  apply forallb_Forall in Hrows.
  eapply Forall_impl; [exact Hrows|].
  intros row Hrow. simpl in Hrow. apply andb_prop in Hrow as [Hl Hc].
  apply Nat.eqb_eq in Hl. split; [exact Hl|].
  apply forallb_Forall. exact Hc.
Qed.

(** C3. For every 8x8 board whose cells are each empty or a piece letter,
    and for every text [active] of the active-colour field, parsing the
    position string that [boardToFen] produces gives the board back:
    [fenToBoard (boardToFen board active)] returns [board] (and does not
    throw). *)
Theorem fenToBoard_boardToFen (b : board) (active : string) :
  validBoard b = true ->
  fenToBoard (boardToFen b active) = Normal b.
Proof.
  intros Hvalid. apply validBoard_spec in Hvalid as [Hlen Hrows].
  assert (Hplain : Forall (fun s => all_chars plain s = true) (map rowToFen b)).
  { apply Forall_map. eapply Forall_impl; [exact Hrows|].
    intros row [Hl Hv]. simpl. rewrite rowToFen_encode.
    apply encode_plain; [exact Hv|lia]. }
  unfold fenToBoard, boardToFen.
  change (" " +:+ active +:+ " KQkq - 0 1")
    with (String " " (active +:+ " KQkq - 0 1")).
  rewrite is_empty_app_cons.
  rewrite split_at_sep by (apply join_plain; exact Hplain).
  simpl hd.
  change "/"%string with (str "/") at 1.
  rewrite split_join.
  - pose proof (fillRows_encode b [] Hrows) as H.
    simpl in H. rewrite Hlen in H. exact H.
  - destruct b; [discriminate Hlen|discriminate].
  - eapply Forall_impl; [exact Hplain|].
    intros s Hs. eapply all_chars_weaken; [|exact Hs].
    intros c Hc. unfold plain in Hc. apply andb_prop in Hc as [Hc _]. exact Hc.
Qed.

Lemma fenToBoard_boardToFen_witness :
  validBoard Samples.startBoard = true /\
  fenToBoard (boardToFen Samples.startBoard "w") = Normal Samples.startBoard.
Proof.
  split; [reflexivity|].
  apply (fenToBoard_boardToFen Samples.startBoard "w"). reflexivity.
Defined.

End RoundTrip.

(** ** The executor *)

Module ExecutorFacts.
Import JsString Regex Board Executor Shape.

Lemma div_abs (d : Z) : d <> 0%Z -> (Z.abs d * (d / Z.abs d) = d)%Z.
Proof.
  intros Hd. destruct d as [|p|p]; [congruence| |].
  - simpl Z.abs. rewrite Z.div_same by lia. lia.
  - simpl Z.abs. change (Z.neg p) with (- Z.pos p)%Z.
    rewrite Z.div_opp_l_z by (try lia; apply Z.mod_same; lia).
    rewrite Z.div_same by lia. lia.
Qed.

Section Fuel.
Variable b : board.
Variable rq : request.

(** When the exit test of a ray loop fails after [n] more steps, any
    number of tests above [n] gives the same result. *)
Lemma ray_enough diagonal sr sc n : forall fuel k rr cc,
  n < fuel ->
  (rr + Z.of_nat n * sr = tRow rq)%Z ->
  (diagonal = false -> (cc + Z.of_nat n * sc = tCol rq)%Z) ->
  ray b rq (fuel + k) diagonal rr cc sr sc = ray b rq fuel diagonal rr cc sr sc.
Proof.
  induction n as [|n IH]; intros fuel k rr cc Hfuel Hrow Hcol;
    (destruct fuel as [|fuel]; [lia|]); simpl.
  - assert (Hr : (rr =? tRow rq)%Z = true) by (apply Z.eqb_eq; lia).
    rewrite Hr. destruct diagonal; [reflexivity|].
    assert (Hc : (cc =? tCol rq)%Z = true) by (apply Z.eqb_eq; specialize (Hcol eq_refl); lia).
    rewrite Hc. reflexivity.
  - destruct (if diagonal then _ else _); [|reflexivity].
    destruct (getZ b rr cc) as [v|]; [|reflexivity]. simpl.
    destruct (truthy v); [reflexivity|].
    apply IH; [lia|lia|].
    intros Hd. specialize (Hcol Hd). lia.
Qed.

(** The tests given to the diagonal loop are never used up. *)
Lemma diagonal_fuel (r c : nat) (k : nat) :
  let dr := (tRow rq - Z.of_nat r)%Z in
  let dc := (tCol rq - Z.of_nat c)%Z in
  dr <> 0%Z ->
  ray b rq (rayFuel (Z.abs dr) (Z.abs dc) + k) true
    (Z.of_nat r + dr / Z.abs dr) (Z.of_nat c + dc / Z.abs dc)
    (dr / Z.abs dr) (dc / Z.abs dc)
  = diagonalRay b rq r c dr dc (Z.abs dr) (Z.abs dc).
Proof.
  intros dr dc Hdr. unfold diagonalRay.
  destruct (Z.eqb_spec (Z.abs dr) 0) as [H0|_]; [lia|].
  apply (ray_enough true _ _ (Z.to_nat (Z.abs dr) - 1)).
  - unfold rayFuel. lia.
  - pose proof (div_abs dr Hdr) as H.
    replace (Z.of_nat (Z.to_nat (Z.abs dr) - 1)) with (Z.abs dr - 1)%Z by lia.
    unfold dr in *. nia.
  - discriminate.
Qed.

(** Nor are those given to the loop along a rank or a file. *)
Lemma straight_fuel (r c : nat) (k : nat) :
  let dr := (tRow rq - Z.of_nat r)%Z in
  let dc := (tCol rq - Z.of_nat c)%Z in
  dr = 0%Z \/ dc = 0%Z ->
  let sr := if (dr =? 0)%Z then 0%Z else (dr / Z.abs dr)%Z in
  let sc := if (dc =? 0)%Z then 0%Z else (dc / Z.abs dc)%Z in
  ray b rq (rayFuel (Z.abs dr) (Z.abs dc) + k) false
    (Z.of_nat r + sr) (Z.of_nat c + sc) sr sc
  = straightRay b rq r c dr dc (Z.abs dr) (Z.abs dc).
Proof.
  intros dr dc Hz sr sc. unfold straightRay. fold sr sc.
  apply (ray_enough false _ _ (Z.to_nat (Z.max (Z.abs dr) (Z.abs dc)) - 1)).
  - unfold rayFuel. lia.
  - unfold sr. destruct (Z.eqb_spec dr 0) as [H0|Hn].
    + unfold dr in *. lia.
    + pose proof (div_abs dr Hn) as H.
      assert (dc = 0%Z) as Hdc by (destruct Hz; [contradiction|assumption]).
      rewrite Hdc. simpl Z.abs. rewrite Z.max_l by lia.
      replace (Z.of_nat (Z.to_nat (Z.abs dr) - 1)) with (Z.abs dr - 1)%Z by lia.
      unfold dr in *. nia.
  - intros _. unfold sc. destruct (Z.eqb_spec dc 0) as [H0|Hn].
    + unfold dc in *. lia.
    + pose proof (div_abs dc Hn) as H.
      assert (dr = 0%Z) as Hdr by (destruct Hz; [assumption|contradiction]).
      rewrite Hdr. simpl Z.abs. rewrite Z.max_r by lia.
      replace (Z.of_nat (Z.to_nat (Z.abs dc) - 1)) with (Z.abs dc - 1)%Z by lia.
      unfold dc in *. nia.
Qed.

End Fuel.

End ExecutorFacts.

(** ** Groups of a match *)

Module RegexFacts.
Import JsString Regex RegexNotions.

Lemma first_char_taken c s :
  first_chars (String.length (String c s) - String.length s) (String c s) = str c.
Proof.
  simpl String.length. replace (S (String.length s) - String.length s) with 1 by lia.
  reflexivity.
Qed.

Section Invariant.
Variable I : nat -> string -> Prop.

Lemma run_within r : forall s caps k res,
  groupsWithin I r -> within I caps -> keeps I k res ->
  run r s caps k = Some res -> within I res.2.
Proof.
  induction r as [p| |r1 IH1 r2 IH2|r1 IH1 r2 IH2|r1 IH1|r1 IH1|i r1 IH1|r1 IH1|];
    intros s caps k res Hr Hcaps Hk; simpl.
  - destruct s as [|c s]; [discriminate|].
    destruct (p c); [apply Hk; exact Hcaps|discriminate].
  - apply Hk; exact Hcaps.
  - destruct Hr as [Hr1 Hr2]. apply IH1; [exact Hr1|exact Hcaps|].
    intros s' caps' Hcaps'. apply IH2; assumption.
  - destruct Hr as [Hr1 Hr2].
    destruct (run r1 s caps k) as [res1|] eqn:E.
    + intros H; inversion H; subst. exact (IH1 _ _ _ _ Hr1 Hcaps Hk E).
    + apply IH2; assumption.
  - destruct (run r1 s caps k) as [res1|] eqn:E.
    + intros H; inversion H; subst. exact (IH1 _ _ _ _ Hr Hcaps Hk E).
    + apply Hk; exact Hcaps.
  - generalize (String.length s) at 1. intros fuel. revert s caps Hcaps.
    induction fuel as [|fuel IHf]; intros s caps Hcaps.
    + apply Hk; exact Hcaps.
    + match goal with
      | |- match ?e with _ => _ end = _ -> _ => destruct e as [res1|] eqn:E
      end.
      * intros H; inversion H; subst.
        refine (IH1 _ _ _ _ Hr Hcaps _ E).
        intros s' caps' Hcaps'.
        destruct (String.length s' <? String.length s); [|discriminate].
        apply IHf; exact Hcaps'.
      * apply Hk; exact Hcaps.
  - destruct r1 as [p| | | | | | | |];
      try (destruct Hr as [Hany Hr1]; apply IH1; [exact Hr1|exact Hcaps|];
           intros s' caps' Hcaps'; apply Hk; constructor; [apply Hany|exact Hcaps']).
    simpl in Hr. simpl.
    destruct s as [|c s]; [discriminate|].
    destruct (p c) eqn:Hp; [|discriminate].
    apply Hk. constructor; [|exact Hcaps].
    rewrite first_char_taken. apply Hr. exact Hp.
  - destruct (run r1 s caps (fun s' caps' => Some (s', caps'))) as [[s1 caps1]|] eqn:E;
      [|discriminate].
    apply Hk.
    refine (IH1 _ _ _ (s1, caps1) Hr Hcaps _ E).
    intros s' caps' Hcaps' H. inversion H; subst. exact Hcaps'.
  - destruct (is_empty s); [apply Hk; exact Hcaps|discriminate].
Qed.

Lemma exec_within r s m :
  groupsWithin I r -> exec r s = Some m -> within I m.
Proof.
  unfold exec, match_at. intros Hr.
  destruct (run r s [] (fun s' caps => Some (s', caps))) as [[rest caps]|] eqn:E;
    [|discriminate].
  intros H; inversion H; subst.
  refine (run_within r _ _ _ (rest, m) Hr (@List.Forall_nil _ _) _ E).
  intros s' caps' Hcaps' H'. inversion H'; subst. exact Hcaps'.
Qed.

Lemma group_within i m text :
  within I m -> group i m = Some text -> I i text.
Proof.
  induction 1 as [|[j x] m Hx _ IH]; [discriminate|].
  simpl. destruct (Nat.eqb_spec i j) as [->|_]; [|exact IH].
  intros H; inversion H; subst. exact Hx.
Qed.

End Invariant.

Lemma sanMove_groups : groupsWithin targetGroups Patterns.sanMove.
Proof.
  unfold Patterns.sanMove, targetGroups; simpl.
  repeat split; try discriminate; intros; try discriminate; eauto.
Qed.

End RegexFacts.

(** ** The shape of the boards *)

Module ShapeFacts.
Import JsString Regex Board Executor Shape Notions RegexNotions ShapeNotions.

Lemma value_no_hole v : value v <> Hole.
Proof. destruct v; discriminate. Qed.

Lemma copyBoard_shaped b : Wide b -> Shaped (copyBoard b).
Proof.
  intros [Hlen Hrows]. unfold copyBoard. split; [rewrite length_map; exact Hlen|].
  apply Forall_map. eapply Forall_impl; [exact Hrows|].
  intros row Hrow. simpl. rewrite length_map. split; [exact Hrow|].
  apply Forall_map. apply Forall_forall. intros v _. apply value_no_hole.
Qed.

Lemma shaped_wide b : Shaped b -> Wide b.
Proof.
  intros [Hlen Hrows]. split; [exact Hlen|].
  eapply Forall_impl; [exact Hrows|]. intros row [H _]. exact H.
Qed.

Lemma shaped_copy b : Shaped b -> copyBoard b = b.
Proof.
  intros [_ Hrows]. unfold copyBoard.
  induction Hrows as [|row b [_ Hrow] _ IH]; [reflexivity|].
  simpl. rewrite IH. f_equal.
  induction Hrow as [|v row Hv _ IHr]; [reflexivity|].
  simpl. rewrite IHr. destruct v; [contradiction|reflexivity|reflexivity].
Qed.

Lemma set_shaped b r c v b' :
  Shaped b -> c < 8 -> v <> Hole -> set b r c v = Normal b' -> Shaped b'.
Proof.
  intros [Hlen Hrows] Hc Hv. unfold set.
  destruct (b !! r) as [row|] eqn:Hrow; [|discriminate].
  intros H; inversion H; subst. split; [rewrite length_insert; exact Hlen|].
  apply Forall_insert; [exact Hrows|].
  rewrite Forall_forall in Hrows.
  destruct (Hrows row ltac:(eapply list_elem_of_lookup_2; exact Hrow)) as [Hwide Hcells].
  unfold set_elem. destruct (Nat.ltb_spec c (length row)); [|lia].
  split; [rewrite length_insert; exact Hwide|].
  apply Forall_insert; assumption.
Qed.

Lemma setZ_shaped b r c v b' :
  Shaped b -> (c < 8)%Z -> v <> Hole -> setZ b r c v = Normal b' -> Shaped b'.
Proof.
  intros Hb Hc Hv. unfold setZ.
  destruct (r <? 0)%Z; [discriminate|].
  destruct (Z.ltb_spec c 0) as [Hneg|Hpos].
  - destruct (b !! Z.to_nat r); [|discriminate].
    intros H; inversion H; subst. exact Hb.
  - apply set_shaped; [exact Hb|lia|exact Hv].
Qed.

Lemma castling_shaped b isWhite kingside b' :
  Shaped b -> executeCastlingForColor b isWhite kingside = Normal b' -> Shaped b'.
Proof.
  intros Hb. unfold executeCastlingForColor.
  pose proof (copyBoard_shaped b (shaped_wide b Hb)) as H0.
  destruct kingside; cbv zeta; unfold cbind.
  all: repeat match goal with
         | |- match set ?x ?r ?c ?v with _ => _ end = _ -> _ =>
             let E := fresh "E" in
             destruct (set x r c v) as [?b|] eqn:E; [|discriminate];
             apply set_shaped in E; [|assumption|lia|discriminate]
         end.
  all: let E := fresh "E" in
       intros E; apply set_shaped in E; [assumption|assumption|lia|discriminate].
Qed.

Lemma squares_range r c : (r, c) ∈ squares -> r < 8 /\ c < 8.
Proof.
  unfold squares. intros H.
  apply list_elem_of_bind in H as (r' & H & Hr).
  apply list_elem_of_bind in H as (c' & H & Hc).
  apply list_elem_of_singleton in H. inversion H; subst.
  apply elem_of_seq in Hr, Hc. lia.
Qed.

Lemma scan_subset b isWhite rq sqs : forall found,
  scan b isWhite rq sqs = Normal found -> found ⊆ sqs.
Proof.
  induction sqs as [|[r c] sqs IH]; intros found; simpl.
  - intros Heq; inversion Heq; subst. intros x Hx. exact Hx.
  - destruct (candidate b isWhite rq r c) as [keep|]; [|discriminate]. simpl.
    destruct (scan b isWhite rq sqs) as [rest|]; [|discriminate]. simpl.
    intros Heq; inversion Heq; subst. specialize (IH rest eq_refl).
    intros x Hx. destruct keep.
    + apply elem_of_cons in Hx as [->|Hx]; apply elem_of_cons;
        [left; reflexivity|right; apply IH; exact Hx].
    + apply elem_of_cons. right. apply IH. exact Hx.
Qed.

Lemma valid_subset b rq found : forall kept,
  valid b rq found = Normal kept -> kept ⊆ found.
Proof.
  induction found as [|rc found IH]; intros kept; simpl.
  - intros Heq; inversion Heq; subst. intros x Hx. exact Hx.
  - destruct (reaches b rq rc) as [keep|]; [|discriminate]. simpl.
    destruct (valid b rq found) as [rest|]; [|discriminate]. simpl.
    intros Heq; inversion Heq; subst. specialize (IH rest eq_refl).
    intros x Hx. destruct keep.
    + apply elem_of_cons in Hx as [->|Hx]; apply elem_of_cons;
        [left; reflexivity|right; apply IH; exact Hx].
    + apply elem_of_cons. right. apply IH. exact Hx.
Qed.

(** The target square of a notation that the pattern accepts is on the
    board. *)
Lemma requestOf_target san isWhite m rq :
  exec Patterns.sanMove san = Some m ->
  requestOf isWhite m = Normal rq ->
  (0 <= tRow rq < 8)%Z /\ (0 <= tCol rq < 8)%Z.
Proof.
  intros Hm. apply (RegexFacts.exec_within targetGroups) in Hm;
    [|exact RegexFacts.sanMove_groups].
  unfold requestOf, groupChar.
  destruct (group 5 m) as [[|f ?]|] eqn:E5; try discriminate.
  destruct (group 6 m) as [[|k ?]|] eqn:E6; try discriminate.
  destruct (RegexFacts.group_within _ _ _ _ Hm E5) as [H5 _].
  destruct (RegexFacts.group_within _ _ _ _ Hm E6) as [_ H6].
  destruct (H5 eq_refl) as (c5 & Heq5 & Hr5).
  destruct (H6 eq_refl) as (c6 & Heq6 & Hr6).
  inversion Heq5; subst. inversion Heq6; subst.
  intros H; inversion H; subst; simpl.
  unfold in_range in Hr5, Hr6. unfold digit_value.
  apply andb_prop in Hr5 as [Ha Hh]. apply andb_prop in Hr6 as [H1 H8].
  apply Nat.leb_le in Ha, Hh, H1, H8.
  change (nat_of_ascii "a") with 97 in Ha. change (nat_of_ascii "h") with 104 in Hh.
  change (nat_of_ascii "1") with 49 in H1. change (nat_of_ascii "8") with 56 in H8.
  lia.
Qed.

(** A move that [executeMove] decides on has its source among the squares
    of the loops and its target on the board. *)
Lemma resolve_range b isWhite san r c rq :
  resolve b isWhite san = Normal (MoveFrom r c rq) ->
  r < 8 /\ c < 8 /\ (0 <= tRow rq < 8)%Z /\ (0 <= tCol rq < 8)%Z.
Proof.
  unfold resolve.
  destruct (is_empty san); [discriminate|].
  destruct (_ || _); [discriminate|].
  destruct (_ || _); [discriminate|].
  destruct (exec Patterns.sanMove san) as [m|] eqn:Hm; [|discriminate].
  destruct (requestOf isWhite m) as [rq0|] eqn:Hrq; [|discriminate]. simpl.
  destruct (potentials b isWhite rq0) as [found|] eqn:Hfound; [|discriminate]. simpl.
  destruct (bool_decide (found = [])); [discriminate|].
  destruct (valid b rq0 found) as [kept|] eqn:Hkept; [|discriminate]. simpl.
  apply scan_subset in Hfound. apply valid_subset in Hkept.
  assert (Hin : forall rc, match kept with rc' :: _ => Some rc' | [] => head found end = Some rc ->
                           rc ∈ squares).
  { intros rc. destruct kept as [|rc' kept].
    - destruct found as [|rc'' found]; [discriminate|].
      intros Heq; inversion Heq; subst. apply Hfound, elem_of_cons. left. reflexivity.
    - intros Heq; inversion Heq; subst.
      apply Hfound, Hkept, elem_of_cons. left. reflexivity. }
  destruct (match kept with rc' :: _ => Some rc' | [] => head found end) as [[r0 c0]|];
    [|discriminate].
  intros H; inversion H; subst.
  destruct (squares_range r c (Hin _ eq_refl)) as [Hr Hc].
  destruct (requestOf_target _ _ _ _ Hm Hrq) as [Ht1 Ht2].
  repeat split; lia.
Qed.

Lemma perform_shaped b isWhite a b' :
  Shaped b ->
  match a with
  | MoveFrom r c rq => c < 8 /\ (tCol rq < 8)%Z
  | _ => True
  end ->
  perform b isWhite a = Normal b' -> Shaped b'.
Proof.
  intros Hb Ha. destruct a as [|kingside|r c rq]; simpl.
  - intros H; inversion H; subst. exact Hb.
  - apply castling_shaped. exact Hb.
  - destruct Ha as [Hc Ht]. unfold cbind.
    destruct (get b r c) as [v|] eqn:Hv; [|discriminate].
    assert (v <> Hole).
    { unfold get in Hv. destruct (b !! r) as [row|]; [|discriminate].
      destruct (row !! c); inversion Hv; subst; [apply value_no_hole|discriminate]. }
    destruct (setZ b (tRow rq) (tCol rq) v) as [b1|] eqn:E1; [|discriminate].
    apply setZ_shaped in E1; [|assumption..].
    destruct (set b1 r c Empty) as [b2|] eqn:E2; [|discriminate].
    apply set_shaped in E2; [|assumption|assumption|discriminate].
    destruct (promotion rq).
    + intros E3. apply setZ_shaped in E3; [assumption|assumption|assumption|discriminate].
    + intros E3; inversion E3; subst. exact E2.
Qed.

(** [executeMove] keeps the shape of a board. *)
Lemma executeMove_shaped board m : Shaped board -> Shaped (executeMove board m).
Proof.
  intros Hb. unfold executeMove, tryExecuteMove.
  pose proof (copyBoard_shaped board (shaped_wide board Hb)) as Hcopy.
  destruct (resolve (copyBoard board) (isWhite m) (notation m)) as [a|] eqn:Ha;
    [|exact Hb]. simpl.
  destruct (perform (copyBoard board) (isWhite m) a) as [b'|] eqn:Hp; [|exact Hb].
  eapply perform_shaped; [exact Hcopy| |exact Hp].
  destruct a as [|kingside|r c rq]; [exact I|exact I|].
  apply resolve_range in Ha. lia.
Qed.

Lemma replay_shaped pre start : Wide start -> Shaped (replay pre start).
Proof.
  intros Hstart. unfold replay.
  pose proof (copyBoard_shaped start Hstart) as H. revert H.
  generalize (copyBoard start). induction pre as [|m pre IH]; intros b Hb; [exact Hb|].
  simpl. apply IH. apply executeMove_shaped. exact Hb.
Qed.

Lemma set_wide b r c v b' : Wide b -> set b r c v = Normal b' -> Wide b'.
Proof.
  intros [Hlen Hrows]. unfold set.
  destruct (b !! r) as [row|] eqn:Hrow; [|discriminate].
  intros H; inversion H; subst. split; [rewrite length_insert; exact Hlen|].
  apply Forall_insert; [exact Hrows|].
  rewrite Forall_forall in Hrows.
  pose proof (Hrows row ltac:(eapply list_elem_of_lookup_2; exact Hrow)) as Hwide.
  unfold set_elem. destruct (Nat.ltb_spec c (length row)).
  - rewrite length_insert. exact Hwide.
  - rewrite !length_app. simpl. lia.
Qed.

Lemma fillRow_wide row : forall b r c b',
  Wide b -> fillRow b r c row = Normal b' -> Wide b'.
Proof.
  induction row as [|ch row IH]; intros b r c b' Hb; simpl.
  - intros H; inversion H; subst. exact Hb.
  - destruct (is_digit ch); [apply IH; exact Hb|].
    destruct (set b r c (Piece ch)) as [b1|] eqn:E; [|discriminate]. simpl.
    apply IH. exact (set_wide _ _ _ _ _ Hb E).
Qed.

Lemma fillRows_wide rows : forall b r b',
  Wide b -> fillRows b r rows = Normal b' -> Wide b'.
Proof.
  induction rows as [|row rows IH]; intros b r b' Hb; simpl.
  - intros H; inversion H; subst. exact Hb.
  - destruct (fillRow b r 0 row) as [b1|] eqn:E; [|discriminate]. simpl.
    apply IH. exact (fillRow_wide _ _ _ _ _ Hb E).
Qed.

(** What [fenToBoard] returns has eight rows of at least eight cells. *)
Lemma fenToBoard_wide fen b : fenToBoard fen = Normal b -> Wide b.
Proof.
  unfold fenToBoard. apply fillRows_wide.
  split; [reflexivity|]. repeat constructor.
Qed.

End ShapeFacts.

(** ** The game assembler *)

Module AssemblerFacts.
Import JsString Regex Board Executor Parser Shape Notions ShapeNotions.

Lemma value_idem v : value (value v) = value v.
Proof. destruct v; reflexivity. Qed.

Lemma copyBoard_idem b : copyBoard (copyBoard b) = copyBoard b.
Proof.
  unfold copyBoard. rewrite map_map. apply map_ext. intros row.
  rewrite map_map. apply map_ext. apply value_idem.
Qed.

Lemma copyBoard_holeFree b : holeFree b = true -> copyBoard b = b.
Proof.
  unfold holeFree, copyBoard. induction b as [|row b IH]; [reflexivity|].
  simpl. intros H. apply andb_prop in H as [Hrow Hb].
  rewrite (IH Hb). f_equal.
  clear -Hrow. induction row as [|v row IH]; [reflexivity|].
  simpl in *. apply andb_prop in Hrow as [Hv Hrow].
  rewrite (IH Hrow). destruct v; [discriminate Hv|reflexivity|reflexivity].
Qed.

Lemma holeFree_copyBoard b : holeFree (copyBoard b) = true.
Proof.
  unfold holeFree, copyBoard. induction b as [|row b IH]; [reflexivity|].
  simpl. rewrite IH, andb_true_r.
  induction row as [|v row IHr]; [reflexivity|].
  simpl. rewrite IHr. destruct v; reflexivity.
Qed.

(** What the callback of [processSequence] returns for a move. *)
Lemma processMove_eq m cur :
  processMove m cur
  = (MoveObj (number m) (move m) (san m) (isWhite m) (comment m)
       (match variations m with
        | Some vs => Some (map (fun v => processSequence v (copyBoard cur)) vs)
        | None => None
        end)
       (Some (boardToFen (executeMove cur m) (activeColor m))),
     executeMove cur m).
Proof. destruct m as [n mv s w cm [vs|] fen]; reflexivity. Qed.

Lemma walk_app pre : forall post cur,
  walk (pre ++ post) cur = walk pre cur ++ walk post (fold_left executeMove pre cur).
Proof.
  induction pre as [|m pre IH]; intros post cur; [reflexivity|].
  simpl. rewrite processMove_eq. simpl. rewrite IH. reflexivity.
Qed.

Lemma walk_length seq : forall cur, length (walk seq cur) = length seq.
Proof.
  induction seq as [|m seq IH]; intros cur; [reflexivity|].
  simpl. rewrite processMove_eq. simpl. rewrite IH. reflexivity.
Qed.

(** The node that [processSequence] makes of the move at index [i], and
    the nodes after it. *)
Lemma processSequence_at seq board i m :
  seq !! i = Some m ->
  processSequence seq board
  = walk (take i seq) (copyBoard board)
    ++ fst (processMove m (replay (take i seq) board))
    :: walk (drop (S i) seq) (executeMove (replay (take i seq) board) m).
Proof.
  intros Hm. unfold processSequence, replay.
  rewrite <- (take_drop_middle seq i m Hm) at 1.
  rewrite walk_app. simpl. rewrite processMove_eq. reflexivity.
Qed.

Lemma processSequence_lookup seq board i m :
  seq !! i = Some m ->
  processSequence seq board !! i
  = Some (fst (processMove m (replay (take i seq) board))).
Proof.
  intros Hm. rewrite (processSequence_at seq board i m Hm).
  assert (Hlen : length (walk (take i seq) (copyBoard board)) = i).
  { rewrite walk_length, length_take. apply lookup_lt_Some in Hm. lia. }
  rewrite lookup_app_r by lia. rewrite Hlen, Nat.sub_diag. reflexivity.
Qed.

Lemma replay_snoc pre p board :
  replay (pre ++ [p]) board = executeMove (replay pre board) p.
Proof. unfold replay. rewrite fold_left_app. reflexivity. Qed.

(** C2. For every sequence of moves of the tree (the main line or a
    variation at any depth), every starting board and every move [m] at an
    index [i] of the sequence: with [before] the board reached by the moves
    in front of [m], the node made of [m] has as its variations the
    variations of [m], each processed from [before] (and not from the board
    after [m]), its position string is that of the board after [m], and the
    nodes that follow it in the sequence are processed from the board after
    [m]. *)
Theorem variations_start_before_the_move
  (seq : list moveObj) (board : board) (i : nat) (m : moveObj) :
  seq !! i = Some m ->
  let before := replay (take i seq) board in
  let after := executeMove before m in
  exists u,
    processSequence seq board !! i = Some u
    /\ variations u
       = match variations m with
         | Some vs => Some (map (fun v => processSequence v before) vs)
         | None => None
         end
    /\ fenAfter u = Some (boardToFen after (activeColor m))
    /\ drop (S i) (processSequence seq board) = walk (drop (S i) seq) after.
Proof.
  intros Hm before after.
  exists (fst (processMove m before)). split; [|split; [|split]].
  - apply processSequence_lookup. exact Hm.
  - rewrite processMove_eq. simpl. destruct (variations m) as [vs|]; [|reflexivity].
    f_equal. apply map_ext. intros v. unfold processSequence.
    rewrite copyBoard_idem. reflexivity.
  - rewrite processMove_eq. reflexivity.
  - rewrite (processSequence_at seq board i m Hm).
    assert (Hlen : length (walk (take i seq) (copyBoard board)) = i).
    { rewrite walk_length, length_take. apply lookup_lt_Some in Hm. lia. }
    rewrite drop_app_ge by lia. rewrite Hlen.
    replace (S i - i) with 1 by lia. reflexivity.
Qed.

Lemma variations_start_before_the_move_witness :
  Samples.variationSample !! 1
  = Some (MoveObj (3 # 2) "e5" "e5" false "" (Some [[Samples.mv "c5" false]]) None)
  /\ exists u,
       processSequence Samples.variationSample Samples.startBoard !! 1 = Some u
       /\ variations u
          = Some [processSequence [Samples.mv "c5" false]
                    (replay [Samples.mv "e4" true] Samples.startBoard)].
Proof.
  split; [reflexivity|].
  destruct (variations_start_before_the_move Samples.variationSample Samples.startBoard 1
              (MoveObj (3 # 2) "e5" "e5" false "" (Some [[Samples.mv "c5" false]]) None)
              eq_refl) as (u & Hu & Hvars & _).
  exists u. split; [exact Hu|exact Hvars].
Defined.

Lemma tryExecuteMove_unresolved board m :
  isCastling (notation m) = false ->
  enumerated (copyBoard board) (isWhite m) (notation m) = Normal [] ->
  tryExecuteMove board m = Normal (copyBoard board).
Proof.
  unfold isCastling, enumerated, tryExecuteMove, resolve.
  intros Hcastle Hnone.
  apply orb_false_elim in Hcastle as [Hcastle Hd].
  apply orb_false_elim in Hcastle as [Hcastle Hc].
  apply orb_false_elim in Hcastle as [Ha Hb].
  destruct (is_empty (notation m)); [reflexivity|].
  rewrite Ha, Hb, Hc, Hd. simpl.
  destruct (exec Patterns.sanMove (notation m)) as [caps|]; [|reflexivity].
  destruct (requestOf (isWhite m) caps) as [rq|]; [|discriminate Hnone].
  simpl in *. rewrite Hnone. reflexivity.
Qed.

Lemma executeMove_unresolved board m :
  isCastling (notation m) = false ->
  enumerated (copyBoard board) (isWhite m) (notation m) = Normal [] ->
  executeMove board m = copyBoard board.
Proof.
  intros Hcastle Hnone. unfold executeMove.
  rewrite (tryExecuteMove_unresolved board m Hcastle Hnone). reflexivity.
Qed.




End AssemblerFacts.

(** ** The executor on the store *)

Module StoreFacts.
Import JsString Regex Board Executor Store StoreNotions.

Section Frame.
(** The store in which [executeMove] is called. *)
Variable h0 : list object.

Lemma extends_refl : extends h0 h0.
Proof. split; [lia|reflexivity]. Qed.

Lemma extends_app h ext : extends h0 h -> extends h0 (h ++ ext).
Proof.
  intros [Hlen Hsame]. split.
  - rewrite length_app. lia.
  - intros l Hl. rewrite lookup_app_l by lia. apply Hsame. exact Hl.
Qed.

Lemma made_since_app h ext b : made_since h0 h b -> made_since h0 (h ++ ext) b.
Proof.
  intros [Hb (rows & Hrows & Hnew)]. split; [exact Hb|].
  exists rows. split; [|exact Hnew].
  rewrite lookup_app_l; [exact Hrows|]. eapply lookup_lt_Some. exact Hrows.
Qed.

Lemma spreadRow_grows l h h' res :
  spreadRow l h = (h', res) ->
  exists ext, h' = h ++ ext /\
    match res with Normal l' => length h <= l' | Throw => True end.
Proof.
  unfold spreadRow, alloc. intros H.
  destruct (h !! l) as [[cells|rows]|]; inversion H; subst.
  - eexists. split; [reflexivity|lia].
  - exists []. rewrite app_nil_r. split; reflexivity.
  - exists []. rewrite app_nil_r. split; reflexivity.
Qed.

Lemma spreadRows_grows ls : forall h h' res,
  spreadRows ls h = (h', res) ->
  exists ext, h' = h ++ ext /\
    match res with
    | Normal ls' => Forall (fun l => length h <= l) ls'
    | Throw => True
    end.
Proof.
  induction ls as [|l ls IH]; intros h h' res H.
  - inversion H; subst. exists []. rewrite app_nil_r. split; [reflexivity|constructor].
  - simpl in H. unfold bind in H.
    destruct (spreadRow l h) as [h1 [l'|]] eqn:E1.
    + apply spreadRow_grows in E1 as (ext1 & -> & Hl').
      destruct (spreadRows ls (h ++ ext1)) as [h2 [ls'|]] eqn:E2.
      * apply IH in E2 as (ext2 & -> & Hls').
        inversion H; subst. exists (ext1 ++ ext2).
        rewrite app_assoc. split; [reflexivity|].
        constructor; [exact Hl'|].
        eapply Forall_impl; [exact Hls'|].
        intros x Hx. simpl in Hx. rewrite length_app in Hx. lia.
      * apply IH in E2 as (ext2 & -> & _).
        inversion H; subst. exists (ext1 ++ ext2).
        rewrite app_assoc. split; reflexivity.
    + apply spreadRow_grows in E1 as (ext1 & -> & _).
      inversion H; subst. exists ext1. split; reflexivity.
Qed.

(** Copying allocates and writes nothing; the copy is new. *)
Lemma copyBoard_new board h h' res :
  extends h0 h ->
  Store.copyBoard board h = (h', res) ->
  extends h0 h' /\
  match res with
  | Normal b => made_since h0 h' b
  | Throw => True
  end.
Proof.
  intros Hext. unfold Store.copyBoard.
  destruct (h !! board) as [[cells|rows]|]; intros H;
    try (inversion H; subst; split; [exact Hext|exact I]).
  unfold bind in H.
  destruct (spreadRows rows h) as [h1 [rows'|]] eqn:E.
  - apply spreadRows_grows in E as (ext & -> & Hnew).
    unfold alloc in H. inversion H; subst. split.
    + apply extends_app, extends_app. exact Hext.
    + destruct Hext as [Hlen _]. split; [rewrite length_app; lia|].
      exists rows'. split.
      * rewrite lookup_app_r by lia. rewrite Nat.sub_diag. reflexivity.
      * eapply Forall_impl; [exact Hnew|]. intros x Hx. simpl in Hx. lia.
  - apply spreadRows_grows in E as (ext & -> & _).
    inversion H; subst. split; [apply extends_app; exact Hext|exact I].
Qed.

(** An assignment to a square of a new board leaves [h0] as it was. *)
Lemma set_new b r c v h h' res :
  extends h0 h -> made_since h0 h b ->
  Store.set b r c v h = (h', res) ->
  extends h0 h' /\ made_since h0 h' b.
Proof.
  intros Hext Hb. unfold Store.set.
  destruct Hb as [Hlb (rows & Hrows & Hnew)]. rewrite Hrows.
  destruct (rows !! r) as [l|] eqn:Hl;
    [|intros H; inversion H; subst; split; [exact Hext|split; eauto]].
  destruct (h !! l) as [[cells|rows2]|] eqn:Hobj;
    intros H; inversion H; subst;
    try (split; [exact Hext|split; eauto]).
  assert (Hge : length h0 <= l).
  { rewrite Forall_forall in Hnew. apply Hnew.
    eapply list_elem_of_lookup_2. exact Hl. }
  assert (Hne : l <> b) by (intros ->; rewrite Hrows in Hobj; discriminate).
  destruct Hext as [Hlen Hsame]. split; [split|split].
  - rewrite length_insert. exact Hlen.
  - intros l0 Hl0. rewrite list_lookup_insert_ne by lia. apply Hsame. exact Hl0.
  - exact Hlb.
  - exists rows. split; [|exact Hnew].
    rewrite list_lookup_insert_ne by exact Hne. exact Hrows.
Qed.

Lemma setZ_new b r c v h h' res :
  extends h0 h -> made_since h0 h b ->
  Store.setZ b r c v h = (h', res) ->
  extends h0 h' /\ made_since h0 h' b.
Proof.
  intros Hext Hb. unfold Store.setZ.
  destruct (r <? 0)%Z; [intros H; inversion H; subst; split; assumption|].
  destruct (c <? 0)%Z; [|apply set_new; assumption].
  destruct (h !! b) as [[cells|rows]|];
    try (intros H; inversion H; subst; split; assumption).
  destruct (rows !! Z.to_nat r); intros H; inversion H; subst; split; assumption.
Qed.

Lemma get_pure b r c h h' res :
  Store.get b r c h = (h', res) -> h' = h.
Proof.
  unfold Store.get.
  destruct (h !! b) as [[cells|rows]|]; try (intros H; inversion H; reflexivity).
  destruct (rows !! r) as [l|]; try (intros H; inversion H; reflexivity).
  destruct (h !! l) as [[cells|rows2]|]; intros H; inversion H; reflexivity.
Qed.

Lemma sound_bind {A B} P Q R (m : action_on A) (k : A -> action_on B) :
  sound h0 P m Q -> (forall a, sound h0 (Q a) (k a) R) -> sound h0 P (bind m k) R.
Proof.
  intros Hm Hk h h' res Hext HP. unfold bind.
  destruct (m h) as [h1 [a|]] eqn:E; intros H.
  - destruct (Hm _ _ _ Hext HP E) as [Hext1 HQ].
    exact (Hk a _ _ _ Hext1 HQ H).
  - inversion H; subst. destruct (Hm _ _ _ Hext HP E) as [Hext1 _].
    split; [exact Hext1|exact I].
Qed.

Lemma sound_ret {A} (a : A) (P : list object -> Prop) (Q : A -> list object -> Prop) :
  (forall h, P h -> Q a h) -> sound h0 P (ret a) Q.
Proof.
  intros HPQ h h' res Hext HP H. inversion H; subst.
  split; [assumption|apply HPQ; assumption].
Qed.

Lemma sound_throw {A} P (Q : A -> list object -> Prop) : sound h0 P throw Q.
Proof. intros h h' res Hext HP H. inversion H; subst. split; [assumption|exact I]. Qed.

Lemma sound_set b r c v :
  sound h0 (fun h => made_since h0 h b) (Store.set b r c v) (fun _ h => made_since h0 h b).
Proof.
  intros h h' res Hext Hb H.
  destruct (set_new _ _ _ _ _ _ _ Hext Hb H) as [Hext' Hb'].
  split; [exact Hext'|]. destruct res; [exact Hb'|exact I].
Qed.

Lemma sound_setZ b r c v :
  sound h0 (fun h => made_since h0 h b) (Store.setZ b r c v) (fun _ h => made_since h0 h b).
Proof.
  intros h h' res Hext Hb H.
  destruct (setZ_new _ _ _ _ _ _ _ Hext Hb H) as [Hext' Hb'].
  split; [exact Hext'|]. destruct res; [exact Hb'|exact I].
Qed.

Lemma sound_get b r c :
  sound h0 (fun h => made_since h0 h b) (Store.get b r c) (fun _ h => made_since h0 h b).
Proof.
  intros h h' res Hext Hb H. apply get_pure in H as ->.
  split; [exact Hext|]. destruct res; [exact Hb|exact I].
Qed.

Lemma sound_copyBoard board :
  sound h0 (fun _ => True) (Store.copyBoard board) (fun b h => made_since h0 h b).
Proof. intros h h' res Hext _ H. exact (copyBoard_new _ _ _ _ Hext H). Qed.

Lemma sound_weaken {A} (P P' : list object -> Prop) (m : action_on A) Q :
  (forall h, P' h -> P h) -> sound h0 P m Q -> sound h0 P' m Q.
Proof. intros HP Hm h h' res Hext HP'. apply Hm; [exact Hext|apply HP; exact HP']. Qed.

Ltac sound_steps :=
  repeat first
    [ apply sound_ret; intros ? ?; assumption
    | apply sound_throw
    | eapply sound_bind; [first [apply sound_set | apply sound_setZ | apply sound_get]|intros ?] ].

Lemma sound_castling board isWhite kingside :
  sound h0 (fun _ => True) (Store.executeCastlingForColor board isWhite kingside)
    (fun b h => made_since h0 h b).
Proof.
  unfold Store.executeCastlingForColor.
  eapply sound_bind; [apply sound_copyBoard|].
  intros b. destruct kingside; cbv zeta; sound_steps.
Qed.

Lemma sound_perform b isWhite a :
  sound h0 (fun h => made_since h0 h b) (Store.perform b isWhite a)
    (fun b' h => made_since h0 h b').
Proof.
  destruct a as [|kingside|r c rq]; simpl.
  - apply sound_ret. intros h Hh. exact Hh.
  - eapply sound_weaken; [|apply sound_castling]. intros; exact I.
  - destruct (promotion rq); sound_steps.
Qed.

Lemma sound_tryExecuteMove board m :
  sound h0 (fun _ => True) (Store.tryExecuteMove board m) (fun b h => made_since h0 h b).
Proof.
  unfold Store.tryExecuteMove.
  eapply sound_bind; [apply sound_copyBoard|].
  intros b h h' res Hext Hb.
  destruct (contents h b) as [snapshot|];
    [|intros H; inversion H; subst; split; [exact Hext|exact I]].
  destruct (resolve snapshot (isWhite m) (notation m)) as [a|].
  - intros H. exact (sound_perform b (isWhite m) a h h' res Hext Hb H).
  - intros H. inversion H; subst. split; [exact Hext|exact I].
Qed.

End Frame.

(** [executeMove] writes to no object that the store held, and what it
    returns is the working copy, or its argument after a fault. *)
Lemma executeMove_frame (h : list object) (board : nat) (m : moveObj) :
  extends h (Store.executeMove board m h).1
  /\ match (Store.tryExecuteMove board m h).2 with
     | Normal b =>
         (Store.executeMove board m h).2 = b
         /\ made_since h (Store.executeMove board m h).1 b
     | Throw => (Store.executeMove board m h).2 = board
     end.
Proof.
  unfold Store.executeMove.
  destruct (Store.tryExecuteMove board m h) as [h' res] eqn:E.
  destruct (sound_tryExecuteMove h board m h h' res (extends_refl h) I E)
    as [Hext Hres].
  destruct res as [b|]; simpl; split; try exact Hext; [|reflexivity].
  split; [reflexivity|exact Hres].
Qed.

End StoreFacts.

Module StoreRefinement.
Import JsString Regex Board Executor Store StoreNotions.

Lemma rowAt_Some h l cells : rowAt h l = Some cells <-> h !! l = Some (RowArray cells).
Proof.
  unfold rowAt. destruct (h !! l) as [[cs|rs]|]; split; intros H;
    inversion H; subst; reflexivity.
Qed.

Lemma contents_Some h b brd :
  contents h b = Some brd <->
  exists rows, h !! b = Some (BoardArray rows) /\
    Forall2 (fun l cells => h !! l = Some (RowArray cells)) rows brd.
Proof.
  unfold contents. split.
  - destruct (h !! b) as [[cs|rows]|]; try discriminate.
    intros H. exists rows. split; [reflexivity|].
    apply mapM_Some in H. eapply Forall2_impl; [exact H|].
    intros l cells. apply rowAt_Some.
  - intros (rows & -> & H). apply mapM_Some.
    eapply Forall2_impl; [exact H|]. intros l cells. apply rowAt_Some.
Qed.

Lemma holds_contents h b brd : holds h b brd -> contents h b = Some brd.
Proof. intros (rows & Hb & _ & H). apply contents_Some. eauto. Qed.

Lemma spreadRows_copies h rows brd :
  Forall2 (fun l cells => h !! l = Some (RowArray cells)) rows brd ->
  forall acc,
    spreadRows rows (h ++ acc)
    = ((h ++ acc) ++ map (fun cells => RowArray (map value cells)) brd,
       Normal (seq (length (h ++ acc)) (length brd))).
Proof.
  induction 1 as [|l cells rows brd Hl _ IH]; intros acc.
  - simpl. rewrite app_nil_r. reflexivity.
  - simpl. unfold bind, spreadRow.
    rewrite (lookup_app_l_Some _ _ _ _ Hl). unfold alloc.
    rewrite <- app_assoc. rewrite IH. unfold ret.
    rewrite <- !app_assoc. simpl. rewrite !length_app. simpl.
    replace (length h + (length acc + 1)) with (S (length h + length acc)) by lia.
    reflexivity.
Qed.

Lemma copyBoard_copies h board brd :
  contents h board = Some brd ->
  exists h' b,
    Store.copyBoard board h = (h', Normal b) /\ holds h' b (Board.copyBoard brd).
Proof.
  intros (rows & Hb & Hrows)%contents_Some.
  unfold Store.copyBoard. rewrite Hb. unfold bind.
  pose proof (spreadRows_copies h rows brd Hrows []) as H.
  rewrite app_nil_r in H. rewrite H. unfold alloc.
  eexists _, _. split; [reflexivity|].
  exists (seq (length h) (length brd)). split; [|split].
  - rewrite lookup_app_r by lia. rewrite Nat.sub_diag. reflexivity.
  - apply NoDup_seq.
  - unfold Board.copyBoard. apply Forall2_same_length_lookup. split.
    + rewrite length_seq, length_map. reflexivity.
    + intros i l cells Hl Hc. apply lookup_seq in Hl as [-> Hi].
      rewrite list_lookup_fmap in Hc.
      destruct (brd !! i) as [cs|] eqn:Hcs; [|discriminate].
      inversion Hc; subst.
      rewrite <- app_assoc, lookup_app_r by lia.
      replace (length h + i - length h) with i by lia.
      rewrite lookup_app_l by (rewrite length_map; lia).
      rewrite list_lookup_fmap, Hcs. reflexivity.
Qed.

Lemma get_agrees h b brd r c :
  holds h b brd -> Store.get b r c h = (h, Board.get brd r c).
Proof.
  intros (rows & Hb & _ & Hrows). unfold Store.get, Board.get. rewrite Hb.
  destruct (rows !! r) as [l|] eqn:Hl.
  - destruct (Forall2_lookup_l _ _ _ _ _ Hrows Hl) as (cells & Hc & Hobj).
    rewrite Hobj, Hc. destruct (cells !! c); reflexivity.
  - assert (brd !! r = None) as ->; [|reflexivity].
    apply lookup_ge_None. apply lookup_ge_None in Hl.
    rewrite <- (Forall2_length _ _ _ Hrows). exact Hl.
Qed.

Lemma set_agrees h b brd r c v :
  holds h b brd ->
  (exists h' brd', Store.set b r c v h = (h', Normal tt)
                   /\ Board.set brd r c v = Normal brd' /\ holds h' b brd')
  \/ (Store.set b r c v h = (h, Throw) /\ Board.set brd r c v = Throw).
Proof.
  intros (rows & Hb & Hnd & Hrows). unfold Store.set, Board.set. rewrite Hb.
  destruct (rows !! r) as [l|] eqn:Hl.
  - destruct (Forall2_lookup_l _ _ _ _ _ Hrows Hl) as (cells & Hc & Hobj).
    rewrite Hobj, Hc. left. eexists _, _. split; [reflexivity|split; [reflexivity|]].
    assert (Hne : l <> b) by (intros ->; rewrite Hb in Hobj; discriminate).
    exists rows. split; [|split; [exact Hnd|]].
    + rewrite list_lookup_insert_ne by exact Hne. exact Hb.
    + apply Forall2_same_length_lookup. split.
      * rewrite length_insert. eapply Forall2_length. exact Hrows.
      * intros i l' cells' Hl' Hc'.
        destruct (decide (i = r)) as [->|Hir].
        -- rewrite Hl in Hl'. inversion Hl'; subst l'.
           rewrite list_lookup_insert_eq in Hc' by (eapply lookup_lt_Some; exact Hc).
           inversion Hc'; subst.
           apply list_lookup_insert_eq. eapply lookup_lt_Some. exact Hobj.
        -- rewrite list_lookup_insert_ne in Hc' by congruence.
           assert (l' <> l).
           { intros Heq. subst l'. apply Hir.
             exact (NoDup_lookup _ _ _ _ Hnd Hl' Hl). }
           rewrite list_lookup_insert_ne by congruence.
           exact (Forall2_lookup_lr _ _ _ _ _ _ Hrows Hl' Hc').
  - right. split; [reflexivity|].
    assert (brd !! r = None) as ->; [|reflexivity].
    apply lookup_ge_None. apply lookup_ge_None in Hl.
    rewrite <- (Forall2_length _ _ _ Hrows). exact Hl.
Qed.

Lemma setZ_agrees h b brd r c v :
  holds h b brd ->
  (exists h' brd', Store.setZ b r c v h = (h', Normal tt)
                   /\ Board.setZ brd r c v = Normal brd' /\ holds h' b brd')
  \/ (Store.setZ b r c v h = (h, Throw) /\ Board.setZ brd r c v = Throw).
Proof.
  intros Hh. unfold Store.setZ, Board.setZ.
  destruct (r <? 0)%Z; [right; split; reflexivity|].
  destruct (c <? 0)%Z; [|apply set_agrees; exact Hh].
  destruct Hh as (rows & Hb & Hnd & Hrows). rewrite Hb.
  destruct (rows !! Z.to_nat r) as [l|] eqn:Hl.
  - destruct (Forall2_lookup_l _ _ _ _ _ Hrows Hl) as (cells & Hc & Hobj).
    rewrite Hc. left. eexists _, _. split; [reflexivity|split; [reflexivity|]].
    exists rows. auto.
  - right. split; [reflexivity|].
    assert (brd !! Z.to_nat r = None) as ->; [|reflexivity].
    apply lookup_ge_None. apply lookup_ge_None in Hl.
    rewrite <- (Forall2_length _ _ _ Hrows). exact Hl.
Qed.

Ltac set_step Hh :=
  lazymatch goal with
  | |- context [Store.set ?b ?r ?c ?v ?h] =>
      let h' := fresh "h" in
      let brd' := fresh "brd" in
      let Hh' := fresh "Hh" in
      destruct (set_agrees h b _ r c v Hh) as [(h' & brd' & -> & -> & Hh')|[-> ->]];
      [simpl|reflexivity]
  end.

Lemma castling_agrees h board brd isWhite kingside :
  contents h board = Some brd ->
  agrees (Store.executeCastlingForColor board isWhite kingside h)
    (Board.executeCastlingForColor brd isWhite kingside).
Proof.
  intros Hc.
  destruct (copyBoard_copies h board brd Hc) as (h1 & b & Hcopy & Hh).
  unfold Store.executeCastlingForColor, Board.executeCastlingForColor.
  cbv zeta. unfold bind at 1. rewrite Hcopy.
  destruct kingside; unfold bind, cbind, ret.
  - set_step Hh. set_step Hh0. set_step Hh1.
    destruct (set_agrees h3 b _ (if isWhite then 7 else 0) 5
                (Piece (if isWhite then "R"%char else "r"%char)) Hh2)
      as [(h4 & brd4 & -> & -> & Hh4)|[-> ->]]; [|reflexivity].
    exists b. split; [reflexivity|exact Hh4].
  - set_step Hh. set_step Hh0. set_step Hh1.
    destruct (set_agrees h3 b _ (if isWhite then 7 else 0) 3
                (Piece (if isWhite then "R"%char else "r"%char)) Hh2)
      as [(h4 & brd4 & -> & -> & Hh4)|[-> ->]]; [|reflexivity].
    exists b. split; [reflexivity|exact Hh4].
Qed.

Ltac setZ_step Hh :=
  lazymatch goal with
  | |- context [Store.setZ ?b ?r ?c ?v ?h] =>
      let h' := fresh "h" in
      let brd' := fresh "brd" in
      let Hh' := fresh "Hh" in
      destruct (setZ_agrees h b _ r c v Hh) as [(h' & brd' & -> & -> & Hh')|[-> ->]];
      [simpl|reflexivity]
  end.

Lemma perform_agrees h b brd isWhite a :
  holds h b brd ->
  agrees (Store.perform b isWhite a h) (Executor.perform brd isWhite a).
Proof.
  intros Hh. destruct a as [|kingside|r c rq]; simpl.
  - exists b. split; [reflexivity|exact Hh].
  - apply castling_agrees. apply holds_contents. exact Hh.
  - unfold bind at 1. rewrite (get_agrees h b brd r c Hh).
    destruct (Board.get brd r c) as [v|]; [|reflexivity].
    unfold bind, cbind, ret. simpl.
    setZ_step Hh. set_step Hh0.
    destruct (promotion rq) as [q|].
    + setZ_step Hh1. exists b. split; [reflexivity|exact Hh2].
    + exists b. split; [reflexivity|exact Hh1].
Qed.

Lemma contents_extends h h' b brd :
  extends h h' -> contents h b = Some brd -> contents h' b = Some brd.
Proof.
  intros [_ Hsame] (rows & Hb & Hrows)%contents_Some.
  apply contents_Some. exists rows. split.
  - rewrite Hsame; [exact Hb|]. eapply lookup_lt_Some. exact Hb.
  - eapply Forall2_impl; [exact Hrows|].
    intros l cells Hl. simpl in *. rewrite Hsame; [exact Hl|].
    eapply lookup_lt_Some. exact Hl.
Qed.

(** The executor on the store computes what the executor on values
    computes: the board that [executeMove] returns has the rows that
    [Executor.executeMove] gives for the rows of its argument. *)
Theorem executeMove_refines (h : list object) (board : nat)
    (brd : list (list cell)) (m : moveObj) :
  contents h board = Some brd ->
  contents (Store.executeMove board m h).1 (Store.executeMove board m h).2
  = Some (Executor.executeMove brd m).
Proof.
  intros Hc.
  unfold Store.executeMove, Executor.executeMove.
  destruct (Store.tryExecuteMove board m h) as [h' res] eqn:E.
  destruct (StoreFacts.sound_tryExecuteMove h board m h h' res
              (StoreFacts.extends_refl h) I E) as [Hext _].
  pose proof (contents_extends h h' board brd Hext Hc) as Hkept.
  revert E. unfold Store.tryExecuteMove, Executor.tryExecuteMove.
  destruct (copyBoard_copies h board brd Hc) as (h1 & b & Hcopy & Hh).
  unfold bind at 1. rewrite Hcopy. rewrite (holds_contents _ _ _ Hh).
  destruct (resolve (Board.copyBoard brd) (isWhite m) (notation m)) as [a|]; simpl.
  - intros E. pose proof (perform_agrees h1 b _ (isWhite m) a Hh) as Hag.
    rewrite E in Hag. unfold agrees in Hag.
    destruct (Executor.perform (Board.copyBoard brd) (isWhite m) a) as [brd'|].
    + destruct Hag as (b' & Hres & Hh'). simpl in Hres, Hh'. subst res.
      apply holds_contents. exact Hh'.
    + simpl in Hag. subst res. exact Hkept.
  - intros E. inversion E; subst. exact Hkept.
Qed.



End StoreRefinement.

(** ** The tree builder *)

Module BuilderFacts.
Import JsString Regex Board Executor Parser Notions BuilderNotions.

Lemma build_app toks1 : forall st toks2,
  build st (toks1 ++ toks2)
  = match build st toks1 with
    | Normal st' => build st' toks2
    | Throw => Throw
    end.
Proof.
  induction toks1 as [|t toks1 IH]; intros st toks2; [reflexivity|].
  simpl. destruct (tokenStep st t) as [st'|]; simpl; [apply IH|reflexivity].
Qed.

Lemma step_comment st t :
  commentToken t = true ->
  tokenStep st t
  = Normal (Builder (sequenceStack st) (commentText (trim t))
              (expectingBlack st) (moveNumber st)).
Proof.
  unfold commentToken, tokenStep. intros H.
  apply andb_prop in H as [Hne Hc]. apply negb_true_iff in Hne.
  rewrite Hne, Hc. reflexivity.
Qed.

Lemma step_move st t :
  moveToken t = true -> tokenStep st t = addMove st (trim t).
Proof.
  unfold moveToken, tokenStep. intros H.
  repeat (apply andb_prop in H as [H ?]).
  repeat match goal with
         | Hb : negb _ = true |- _ => apply negb_true_iff in Hb; rewrite Hb
         end.
  destruct (exec Patterns.numMatch (trim t)); [discriminate|].
  match goal with Hs : isSan _ = true |- _ => rewrite Hs end. reflexivity.
Qed.

Ltac same_states :=
  simpl; unfold same_but_pending; simpl; repeat split; congruence.

Lemma closeVariation_same a b :
  same_but_pending a b -> same_outcome (closeVariation a) (closeVariation b).
Proof.
  intros (Hs & He & Hn). unfold closeVariation. rewrite Hs.
  destruct (sequenceStack b) as [|finished [|currentSeq below]]; simpl; auto.
  destruct (last currentSeq); same_states.
Qed.

(** A token that is not a move acts alike on two such states, and leaves
    them equal when it is a comment. *)
Lemma step_same a b t :
  moveToken t = false ->
  same_but_pending a b ->
  same_outcome (tokenStep a t) (tokenStep b t)
  /\ (commentToken t = true -> tokenStep a t = tokenStep b t).
Proof.
  intros Hmove Hab. pose proof Hab as (Hs & He & Hn). split.
  - unfold tokenStep. unfold moveToken in Hmove.
    destruct (is_empty (trim t)); [exact Hab|].
    destruct (isComment (trim t)); [same_states|].
    destruct (isOpen (trim t)); [same_states|].
    destruct (isClose (trim t)); [apply closeVariation_same; exact Hab|].
    destruct (exec Patterns.numMatch (trim t)) as [m|];
      [destruct (group 1 m); same_states|].
    simpl in Hmove. rewrite Hmove. exact Hab.
  - intros Hc. rewrite !step_comment by exact Hc. rewrite Hs, He, Hn. reflexivity.
Qed.

Lemma build_same toks : forall a b,
  Forall (fun t => moveToken t = false) toks ->
  same_but_pending a b ->
  same_outcome (build a toks) (build b toks).
Proof.
  induction toks as [|t toks IH]; intros a b Hall Hab; [exact Hab|].
  inversion Hall as [|? ? Ht Hrest]; subst. simpl.
  destruct (step_same a b t Ht Hab) as [Hout _].
  destruct (tokenStep a t) as [a'|], (tokenStep b t) as [b'|]; simpl in *;
    try contradiction; [|exact I].
  apply IH; assumption.
Qed.

(** A token that is neither a comment nor a move leaves the pending
    comment as it is. *)
Lemma step_keeps_pending st t st' :
  commentToken t = false -> moveToken t = false ->
  tokenStep st t = Normal st' -> pending st' = pending st.
Proof.
  unfold commentToken, moveToken, tokenStep.
  destruct (is_empty (trim t)); [intros _ _ H; inversion H; reflexivity|].
  destruct (isComment (trim t)); [discriminate|].
  destruct (isOpen (trim t)); [intros _ _ H; inversion H; reflexivity|].
  destruct (isClose (trim t)).
  - intros _ _. unfold closeVariation.
    destruct (sequenceStack st) as [|finished [|currentSeq below]]; try discriminate.
    destruct (last currentSeq); intros H; inversion H; reflexivity.
  - destruct (exec Patterns.numMatch (trim t));
      [intros _ _ H; inversion H; reflexivity|].
    simpl. intros _ Hm. rewrite Hm. intros H; inversion H; reflexivity.
Qed.

Lemma build_keeps_pending toks : forall st st',
  Forall (fun t => commentToken t = false /\ moveToken t = false) toks ->
  build st toks = Normal st' -> pending st' = pending st.
Proof.
  induction toks as [|t toks IH]; intros st st' Hall H.
  - inversion H; reflexivity.
  - inversion Hall as [|? ? [Hc Hm] Hrest]; subst. simpl in H.
    destruct (tokenStep st t) as [st1|] eqn:E; [|discriminate].
    simpl in H. rewrite (IH _ _ Hrest H).
    exact (step_keeps_pending _ _ _ Hc Hm E).
Qed.

(** The stack of open sequences never runs empty without a fault. *)
Lemma step_stack st t st' :
  sequenceStack st <> [] -> tokenStep st t = Normal st' -> sequenceStack st' <> [].
Proof.
  unfold tokenStep. intros Hne.
  destruct (is_empty (trim t)); [intros H; inversion H; subst; exact Hne|].
  destruct (isComment (trim t)); [intros H; inversion H; subst; exact Hne|].
  destruct (isOpen (trim t)); [intros H; inversion H; subst; discriminate|].
  destruct (isClose (trim t)).
  - unfold closeVariation.
    destruct (sequenceStack st) as [|finished [|currentSeq below]]; try discriminate.
    destruct (last currentSeq); intros H; inversion H; subst; discriminate.
  - destruct (exec Patterns.numMatch (trim t)); [intros H; inversion H; subst; exact Hne|].
    destruct (isSan (trim t)); [|intros H; inversion H; subst; exact Hne].
    unfold addMove. destruct (sequenceStack st); [discriminate|].
    intros H; inversion H; subst; discriminate.
Qed.

Lemma build_stack toks : forall st st',
  sequenceStack st <> [] -> build st toks = Normal st' -> sequenceStack st' <> [].
Proof.
  induction toks as [|t toks IH]; intros st st' Hne H.
  - inversion H; subst; exact Hne.
  - simpl in H. destruct (tokenStep st t) as [st1|] eqn:E; [|discriminate].
    exact (IH _ _ (step_stack _ _ _ Hne E) H).
Qed.

(** The node of the move token [mv], made in a state whose pending
    comment is [text]. *)
Lemma move_takes_pending st mv :
  moveToken mv = true ->
  sequenceStack st <> [] ->
  exists top below node,
    sequenceStack st = top :: below
    /\ tokenStep st mv
       = Normal (Builder ((top ++ [node]) :: below) ""
                   (negb (expectingBlack st))
                   (if negb (expectingBlack st) then moveNumber st
                    else (moveNumber st + 1)%N))
    /\ comment node = pending st
    /\ san node = trim mv
    /\ variations node = None.
Proof.
  intros Hmv Hne. rewrite (step_move _ _ Hmv). unfold addMove.
  destruct (sequenceStack st) as [|top below]; [congruence|].
  eexists top, below, _. split; [reflexivity|].
  split; [reflexivity|]. repeat split.
Qed.

Lemma initial_stack : sequenceStack initialBuilder <> [].
Proof. discriminate. Qed.

Lemma same_outcome_tree x y : same_outcome x y -> treeOf x = treeOf y.
Proof.
  destruct x as [a|], y as [b|]; simpl; try contradiction; try reflexivity.
  intros (Hs & _). rewrite Hs. reflexivity.
Qed.

(** A comment token followed by tokens that are no moves: from the next
    comment token on, or at the end, nothing is left of it. *)
Lemma comment_then_no_move st c toks :
  commentToken c = true ->
  Forall (fun t => moveToken t = false) toks ->
  same_outcome (build st (c :: toks)) (build st toks).
Proof.
  intros Hc Hall. simpl. rewrite (step_comment _ _ Hc). simpl.
  apply build_same; [exact Hall|]. repeat split.
Qed.

(** C4 (the code departs from the claim). A closing parenthesis met while
    the main line alone is open is no no-op: it pops the main line off the
    stack and the next statement reads a property of [undefined], so the
    builder faults in every state with one open sequence, and on every
    token stream that brings it a closing parenthesis in such a state; the
    chunk [1. e4 ) e5] is dropped whole, and the text that holds it alone
    parses to no game. *)
Theorem unbalanced_close_drops_the_chunk :
  (forall (main : list moveObj) (text : string) (black : bool) (n : N),
     tokenStep (Builder [main] text black n) ")" = Throw)
  /\ (forall (pre rest : list string) (st : builder),
       build initialBuilder pre = Normal st ->
       length (sequenceStack st) = 1 ->
       build initialBuilder (pre ++ ")" :: rest) = Throw)
  /\ rawTokens "1. e4 ) e5" = ["1."; "e4"; ")"; "e5"]
  /\ build initialBuilder (rawTokens "1. e4 ) e5") = Throw
  /\ processChunk "1. e4 ) e5" = Throw
  /\ parsePGN "1. e4 ) e5" = [].
Proof.
  split; [reflexivity|]. split.
  - intros pre rest [stack text black n] Hpre Hone.
    rewrite build_app, Hpre. simpl in Hone.
    destruct stack as [|main [|second stack]]; try discriminate Hone.
    reflexivity.
  - repeat split; vm_compute; reflexivity.
Qed.






End BuilderFacts.

(** ** Chunks, header lines and the whole text *)

Module ChunkFacts.
Import JsString Regex Board Executor Parser Shape Notions BuilderNotions StringFacts.

(** *** Header lines *)

Lemma lines_in_header_mode pre : forall st,
  inHeaders st = true ->
  forallb headerCandidate pre = true ->
  inHeaders (fold_left lineStep pre st) = true
  /\ moveText (fold_left lineStep pre st) = moveText st.
Proof.
  induction pre as [|line pre IH]; intros st Hin Hall; [split; [exact Hin|reflexivity]|].
  simpl in Hall. apply andb_prop in Hall as [Hline Hrest].
  simpl fold_left.
  assert (Hstep : inHeaders (lineStep st line) = true
                  /\ moveText (lineStep st line) = moveText st).
  { unfold lineStep. unfold headerCandidate in Hline.
    destruct (is_empty (trim line)); [split; [exact Hin|reflexivity]|].
    simpl in Hline. rewrite Hin, Hline. simpl.
    destruct (exec Patterns.headerLine (trim line)) as [m|];
      [|split; [exact Hin|reflexivity]].
    destruct (group 1 m), (group 2 m); split; try exact Hin; reflexivity. }
  destruct Hstep as [Hin' Htext].
  destruct (IH _ Hin' Hrest) as [H1 H2]. split; [exact H1|].
  rewrite H2. exact Htext.
Qed.

Lemma lines_after_headers post : forall st,
  inHeaders st = false ->
  fold_left lineStep post st
  = LineState (lineHeaders st) (moveText st ++ moveLines post) false.
Proof.
  induction post as [|line post IH]; intros st Hin.
  - simpl. rewrite app_nil_r. destruct st; simpl in *; subst; reflexivity.
  - simpl. unfold lineStep at 2.
    destruct (is_empty (trim line)) eqn:E; [apply IH; exact Hin|].
    rewrite Hin. simpl. rewrite IH by reflexivity. simpl.
    rewrite <- app_assoc. reflexivity.
Qed.




(** *** Chunks without moves *)

Lemma step_without_move st t st' :
  moveToken t = false ->
  Forall (fun s => s = []) (sequenceStack st) ->
  tokenStep st t = Normal st' ->
  Forall (fun s => s = []) (sequenceStack st').
Proof.
  unfold moveToken, tokenStep. intros Hmove Hall.
  destruct (is_empty (trim t)); [intros H; inversion H; subst; exact Hall|].
  destruct (isComment (trim t)); [intros H; inversion H; subst; exact Hall|].
  destruct (isOpen (trim t));
    [intros H; inversion H; subst; constructor; [reflexivity|exact Hall]|].
  destruct (isClose (trim t)).
  - unfold closeVariation.
    destruct (sequenceStack st) as [|finished [|currentSeq below]]; try discriminate.
    inversion Hall as [|? ? _ Hbelow]; subst.
    inversion Hbelow as [|? ? Hcur _]; subst.
    simpl. intros H; inversion H; subst. exact Hbelow.
  - destruct (exec Patterns.numMatch (trim t));
      [intros H; inversion H; subst; exact Hall|].
    simpl in Hmove. rewrite Hmove. intros H; inversion H; subst; exact Hall.
Qed.

Lemma build_without_move toks : forall st st',
  Forall (fun t => moveToken t = false) toks ->
  Forall (fun s => s = []) (sequenceStack st) ->
  build st toks = Normal st' ->
  mainLine st' = [].
Proof.
  induction toks as [|t toks IH]; intros st st' Htoks Hall H.
  - inversion H; subst. unfold mainLine.
    destruct (last (sequenceStack st')) as [s|] eqn:E; [|reflexivity].
    apply last_Some in E as (front & E). rewrite E in Hall.
    apply Forall_app in Hall as [_ Hs]. inversion Hs; subst. reflexivity.
  - inversion Htoks as [|? ? Ht Hrest]; subst. simpl in H.
    destruct (tokenStep st t) as [st1|] eqn:E; [|discriminate].
    exact (IH _ _ Hrest (step_without_move _ _ _ Ht Hall E) H).
Qed.




(** *** The loop over the chunks *)

Lemma chunkStep_app result raw :
  chunkStep result raw = result ++ contribution raw.
Proof.
  unfold contribution, chunkStep.
  destruct (processChunk raw) as [[g|]|]; simpl;
    rewrite ?app_nil_r; reflexivity.
Qed.

Lemma records_from chunks : forall result,
  fold_left chunkStep chunks result = result ++ recordsOf chunks.
Proof.
  unfold recordsOf.
  induction chunks as [|raw chunks IH]; intros result.
  - simpl. rewrite app_nil_r. reflexivity.
  - simpl. rewrite IH, (IH (chunkStep [] raw)), chunkStep_app.
    fold (contribution raw). rewrite <- app_assoc. reflexivity.
Qed.

Lemma recordsOf_app before after :
  recordsOf (before ++ after) = recordsOf before ++ recordsOf after.
Proof. unfold recordsOf at 1. rewrite fold_left_app. apply records_from. Qed.

Lemma recordsOf_cons raw after :
  recordsOf (raw :: after) = contribution raw ++ recordsOf after.
Proof. unfold recordsOf at 1. simpl. apply records_from. Qed.

(** A text of nothing but white space has no chunk. *)
Lemma trim_empty s : is_empty (trim s) = all_chars is_ws s.
Proof.
  unfold trim. induction s as [|c s IH]; [reflexivity|].
  simpl. destruct (is_ws c) eqn:E; [exact IH|].
  simpl. rewrite E. reflexivity.
Qed.

Lemma rev_string_all p s : forall acc,
  all_chars p (rev_string acc s) = all_chars p acc && all_chars p s.
Proof.
  induction s as [|c s IH]; intros acc; simpl.
  - rewrite andb_true_r. reflexivity.
  - rewrite IH. simpl. destruct (p c), (all_chars p acc); reflexivity.
Qed.

Lemma split_from_all p r s : forall skip piece,
  all_chars p s = true -> all_chars p piece = true ->
  Forall (fun x => all_chars p x = true) (split_from false r skip piece s).
Proof.
  induction s as [|c s IH]; intros skip piece Hs Hpiece.
  - simpl. constructor; [|constructor].
    rewrite rev_string_all, Hpiece. reflexivity.
  - simpl in Hs. apply andb_prop in Hs as [Hc Hs].
    assert (Hrev : all_chars p (rev_string EmptyString piece) = true)
      by (rewrite rev_string_all, Hpiece; reflexivity).
    assert (Hcons : all_chars p (String c piece) = true)
      by (simpl; rewrite Hc, Hpiece; reflexivity).
    simpl. destruct skip as [|skip]; [|apply IH; assumption].
    destruct (match_at r (String c s)) as [[[[|m0 m] rest] caps]|].
    + destruct (is_empty piece).
      * apply IH; assumption.
      * constructor; [exact Hrev|]. simpl. apply IH; [exact Hs|].
        simpl. rewrite Hc. reflexivity.
    + constructor; [exact Hrev|]. simpl. apply IH; [exact Hs|reflexivity].
    + apply IH; assumption.
Qed.

Lemma remove_all_all p c s :
  all_chars p s = true -> all_chars p (remove_all c s) = true.
Proof.
  induction s as [|d s IH]; [reflexivity|].
  simpl. intros H. apply andb_prop in H as [Hd Hs].
  destruct (ascii_eqb d c); [exact (IH Hs)|].
  simpl. rewrite Hd, (IH Hs). reflexivity.
Qed.

Lemma blank_text_no_chunks text :
  is_empty (trim text) = true -> rawGames text = [].
Proof.
  rewrite trim_empty. intros Hws. unfold rawGames.
  assert (Hpieces : Forall (fun x => all_chars is_ws x = true)
                      (Regex.split false Patterns.gameBoundary (remove_all cr text))).
  { apply (remove_all_all _ cr) in Hws. unfold Regex.split.
    destruct (remove_all cr text) as [|c s] eqn:E.
    - destruct (match_at _ _); repeat constructor.
    - apply split_from_all; [exact Hws|reflexivity]. }
  induction Hpieces as [|x l Hx _ IH]; [reflexivity|].
  simpl. rewrite filter_cons_False; [exact IH|].
  rewrite <- trim_empty in Hx.
  intros H. apply andb_prop_elim in H as [H _].
  rewrite Hx in H. exact H.
Qed.

(** C5. For every input text [parsePGN] returns the list of the records
    of its chunks, each made from its chunk alone; a chunk whose
    processing raises a fault adds nothing and takes nothing away: the
    result is the records of the chunks in front of it followed by the
    records of the chunks after it, as if the faulty chunk were not in the
    text. *)
Theorem faulty_chunk_is_skipped
  (pgnText : string) (before after : list string) (raw : string) :
  rawGames pgnText = before ++ raw :: after ->
  parsePGN pgnText = recordsOf before ++ contribution raw ++ recordsOf after
  /\ (processChunk raw = Throw ->
      contribution raw = []
      /\ parsePGN pgnText = recordsOf (before ++ after))
  /\ (forall g, processChunk raw = Normal (Some g) ->
      parsePGN pgnText = recordsOf before ++ g :: recordsOf after).
Proof.
  intros Hchunks.
  assert (Hparse : parsePGN pgnText
                   = recordsOf before ++ contribution raw ++ recordsOf after).
  { unfold parsePGN.
    destruct (is_empty (trim pgnText)) eqn:E.
    - apply blank_text_no_chunks in E. rewrite E in Hchunks.
      destruct before; discriminate Hchunks.
    - rewrite Hchunks. fold (recordsOf (before ++ raw :: after)).
      rewrite recordsOf_app, recordsOf_cons. reflexivity. }
  split; [exact Hparse|]. split.
  - intros Hfault.
    assert (Hnone : contribution raw = [])
      by (unfold contribution, chunkStep; rewrite Hfault; reflexivity).
    split; [exact Hnone|].
    rewrite Hparse, Hnone, recordsOf_app. reflexivity.
  - intros g Hg. rewrite Hparse. unfold contribution, chunkStep. rewrite Hg.
    reflexivity.
Qed.

Lemma faulty_chunk_is_skipped_witness :
  rawGames Samples.twoChunks
  = [] ++ (Samples.tag "Event" "a" +:+ Samples.nl +:+ Samples.nl +:+ "1. e4 )")
       :: [Samples.tag "Event" "b" +:+ Samples.nl +:+ Samples.nl +:+ "1. d4"]
  /\ processChunk (Samples.tag "Event" "a" +:+ Samples.nl +:+ Samples.nl +:+ "1. e4 )")
     = Throw
  /\ parsePGN Samples.twoChunks
     = recordsOf ([] ++ [Samples.tag "Event" "b" +:+ Samples.nl +:+ Samples.nl +:+ "1. d4"]).
Proof.
  assert (Hchunks : rawGames Samples.twoChunks
    = [] ++ (Samples.tag "Event" "a" +:+ Samples.nl +:+ Samples.nl +:+ "1. e4 )")
         :: [Samples.tag "Event" "b" +:+ Samples.nl +:+ Samples.nl +:+ "1. d4"])
    by (vm_compute; reflexivity).
  assert (Hfault :
    processChunk (Samples.tag "Event" "a" +:+ Samples.nl +:+ Samples.nl +:+ "1. e4 )")
    = Throw) by (vm_compute; reflexivity).
  split; [exact Hchunks|]. split; [exact Hfault|].
  apply (faulty_chunk_is_skipped Samples.twoChunks [] _ _ Hchunks). exact Hfault.
Defined.

End ChunkFacts.

(** ** The model on sample inputs *)

Module Examples.
Import JsString Regex Patterns Board Executor Parser Samples.

Example sanMove_e4 :
  exec sanMove "e4" = Some [(6, "4"); (5, "e")].
Proof. vm_compute. reflexivity. Qed.

Example sanMove_Nbxd7 :
  exec sanMove "Nbxd7+" = Some [(6, "7"); (5, "d"); (4, "x"); (2, "b"); (1, "N")].
Proof. vm_compute. reflexivity. Qed.

Example sanMove_promotion :
  exec sanMove "exd8=Q#"
  = Some [(7, "=Q"); (8, "Q"); (6, "8"); (5, "d"); (4, "x"); (2, "e")].
Proof. vm_compute. reflexivity. Qed.

Example sanMove_result : exec sanMove "1-0" = None.
Proof. vm_compute. reflexivity. Qed.

Example numMatch_black : exec numMatch "12..." = Some [(2, "..."); (1, "12")].
Proof. vm_compute. reflexivity. Qed.

Example numMatch_white : exec numMatch "3." = Some [(1, "3")].
Proof. vm_compute. reflexivity. Qed.

Example tokens_of_line :
  rawTokens "1. e4 {best} (1. d4) 1... c5 1-0"
  = ["1."; "e4"; "{best}"; "("; "1."; "d4"; ")"; "1..."; "c5"; "1-0"].
Proof. vm_compute. reflexivity. Qed.

Example castle_is_san : test sanRegex "O-O-O" = true.
Proof. vm_compute. reflexivity. Qed.

Example fenToBoard_initial : fenToBoard "" = Normal startBoard.
Proof. vm_compute. reflexivity. Qed.

Example boardToFen_initial : boardToFen startBoard "w" = Board.initialFen.
Proof. vm_compute. reflexivity. Qed.

(** A ninth rank with a piece: the row [board[8]] is [undefined]. *)
Example fenToBoard_nine_ranks : fenToBoard "8/8/8/8/8/8/8/8/p w" = Throw.
Proof. vm_compute. reflexivity. Qed.

(** A rank that is too long grows its row and leaves a hole. *)
Example fenToBoard_long_rank :
  fenToBoard "9p"
  = Normal ((replicate 8 Empty ++ [Hole; Piece "p"]) :: replicate 7 (replicate 8 Empty)).
Proof. vm_compute. reflexivity. Qed.

Example pawn_e4 :
  executeMove startBoard (mv "e4" true)
  = [ rankOf "rnbqkbnr"; rankOf "pppppppp"; rankOf "........"; rankOf "........";
      rankOf "....P..."; rankOf "........"; rankOf "PPPP.PPP"; rankOf "RNBQKBNR" ].
Proof. vm_compute. reflexivity. Qed.

Example knight_f3 :
  executeMove startBoard (mv "Nf3" true)
  = [ rankOf "rnbqkbnr"; rankOf "pppppppp"; rankOf "........"; rankOf "........";
      rankOf "........"; rankOf ".....N.."; rankOf "PPPPPPPP"; rankOf "RNBQKB.R" ].
Proof. vm_compute. reflexivity. Qed.

(** Castling squares: the king goes to g1 and the rook to f1. *)
Example castle_short :
  executeMove
    [ rankOf "r...k..r"; rankOf "pppppppp"; rankOf "........"; rankOf "........";
      rankOf "........"; rankOf "........"; rankOf "PPPPPPPP"; rankOf "R...K..R" ]
    (mv "O-O" true)
  = [ rankOf "r...k..r"; rankOf "pppppppp"; rankOf "........"; rankOf "........";
      rankOf "........"; rankOf "........"; rankOf "PPPPPPPP"; rankOf "R....RK." ].
Proof. vm_compute. reflexivity. Qed.

(** Variation seeding: [c5] is played on the board on which [e5] was. *)
Example variation_seeding :
  map (fun m => (san m, fenAfter m,
                 match variations m with
                 | Some vs => map (map (fun v => (san v, fenAfter v))) vs
                 | None => []
                 end))
    (flat_map moves (parsePGN "1. e4 e5 (1...c5) 2. Nf3"))
  = [ ("e4", Some "rnbqkbnr/pppppppp/8/8/4P3/8/PPPP1PPP/RNBQKBNR b KQkq - 0 1", []);
      ("e5", Some "rnbqkbnr/pppp1ppp/8/4p3/4P3/8/PPPP1PPP/RNBQKBNR w KQkq - 0 1",
       [[("c5", Some "rnbqkbnr/pp1ppppp/8/2p5/4P3/8/PPPP1PPP/RNBQKBNR w KQkq - 0 1")]]);
      ("Nf3", Some "rnbqkbnr/pppp1ppp/8/4p3/4P3/5N2/PPPP1PPP/RNBQKB1R b KQkq - 0 1", []) ].
Proof. vm_compute. reflexivity. Qed.

(** The comment between [a6] and [4. Ba4] goes to [Ba4]. *)
Example ruy_lopez_comments :
  map (fun m => (san m, comment m))
    (flat_map moves
       (parsePGN
          "1. e4 e5 2. Nf3 Nc6 3. Bb5 a6 {This opening is called the Ruy Lopez.} 4. Ba4 Nf6 5. O-O Be7"))
  = [ ("e4", ""); ("e5", ""); ("Nf3", ""); ("Nc6", ""); ("Bb5", ""); ("a6", "");
      ("Ba4", "This opening is called the Ruy Lopez."); ("Nf6", ""); ("O-O", "");
      ("Be7", "") ].
Proof. vm_compute. reflexivity. Qed.

(** An assignment through the inherited accessor sets no header. *)
Example proto_header :
  setHeader ∅ "__proto__" "x" = ∅ /\ setHeader ∅ "Event" "x" = {[ "Event" := "x" ]}.
Proof. split; vm_compute; reflexivity. Qed.

End Examples.
